(** * The Agent Core supervisor loop ([agent_core.py])

    A shallow embedding of [main] of [MCP-Agent/AgentCore/agent_core.py]:
    the start-up lines, the [while True] loop, its [try] body and its two
    [except] clauses.  The program talks to the outside through three
    library calls ([time.sleep], the logger and [print]); each call is
    answered by an environment, which lets it return or makes it raise.
    The interpreter also looks for pending signals when it jumps back to
    [while True:], outside the [try]: that check is a call of its own.  The
    world keeps a simulated clock and the history of the calls, from which
    the records this run adds to [agent_core.log] and the lines it prints
    are read back. *)

From Stdlib Require Import ZArith List String Bool Lia.
Import ListNotations.
Open Scope string_scope.
Open Scope list_scope.
Open Scope Z_scope.

(** ** Python exceptions *)

(** The places of the exception hierarchy that the two [except] clauses
    tell apart.  [BaseOnly] stands for the classes that derive from
    [BaseException] but not from [Exception] ([SystemExit],
    [GeneratorExit]).  [PyException] is an instance of a subclass of
    [Exception] with what [str(e)] gives and the traceback it carries;
    [Undescribable] is one whose [__str__] fails, so that [str(e)] raises
    [raised] (a [TypeError] when [__str__] returns something that is not a
    string). *)
Inductive exn : Type :=
| KeyboardInterrupt
| BaseOnly (cls : string)
| PyException (cls : string) (msg : string) (traceback : list string)
| Undescribable (cls : string) (raised : exn) (traceback : list string).

(** [isinstance(e, KeyboardInterrupt)] *)
Definition is_KeyboardInterrupt (e : exn) : bool :=
  match e with KeyboardInterrupt => true | _ => false end.

(** [isinstance(e, Exception)] *)
Definition is_Exception (e : exn) : bool :=
  match e with
  | PyException _ _ _ => true
  | Undescribable _ _ _ => true
  | _ => false
  end.

Definition exc_traceback (e : exn) : list string :=
  match e with
  | PyException _ _ tb => tb
  | Undescribable _ _ tb => tb
  | _ => []
  end.

(** What a computation gives: a value, or an exception. *)
Inductive outcome (A : Type) : Type :=
| Ok (a : A)
| Raise (e : exn).
Arguments Ok {A} a.
Arguments Raise {A} e.

(** [str(e)], what the f-string [{e}] of line 30 evaluates: it runs the
    [__str__] of the exception, which can raise. *)
Definition str (e : exn) : outcome string :=
  match e with
  | KeyboardInterrupt => Ok EmptyString
  | BaseOnly _ => Ok EmptyString
  | PyException _ msg _ => Ok msg
  | Undescribable _ raised _ => Raise raised
  end.

(** ** The logging sink *)

Inductive level : Type := DEBUG | INFO | WARNING | ERROR | CRITICAL.

Definition levelno (l : level) : Z :=
  match l with
  | DEBUG => 10 | INFO => 20 | WARNING => 30 | ERROR => 40 | CRITICAL => 50
  end.

(** [logging.basicConfig(..., level=logging.INFO, ...)] *)
Definition configured_level : level := INFO.

(** [logging.getLogger('AgentCore')] *)
Definition logger_name : string := "AgentCore".

(** One line of [agent_core.log], by the fields of the configured format
    [%(asctime)s - %(name)s - %(levelname)s - %(message)s]; the formatter
    appends [exc_text], the formatted stack, when the call asked for it. *)
Record LogRecord : Type := mkLogRecord {
  asctime : Z;
  name : string;
  levelname : level;
  message : string;
  exc_text : option (list string)
}.

(** ** Calls, replies and the world *)

(** The library calls the program makes; [Log l m x] is
    [logger.<l>(m, exc_info=x)].  [BackEdge] is the jump back to
    [while True:] (line 19) at the end of an iteration, where the
    interpreter runs the handlers of the signals that arrived between two
    calls. *)
Inductive call : Type :=
| Sleep (secs : Z)
| Log (lvl : level) (msg : string) (exc_info : option exn)
| PrintLine (msg : string)
| BackEdge.

(** What a call does.  It returns, or it raises [e] after [elapsed]
    seconds (a sleep cut short by a signal) and before any effect of its
    own.  A logger call has two more ways: [LogLost], the handler fails to
    store the record (a full disk), [logging] swallows that failure and the
    call returns; [InterruptedAfterWrite], the record is stored and flushed
    and [KeyboardInterrupt] is then raised inside the call, which runs
    Python code. *)
Inductive reply : Type :=
| Returns
| Raises (e : exn) (elapsed : Z)
| LogLost
| InterruptedAfterWrite.

Record occurrence : Type := mkOccurrence {
  at_time : Z;
  what : call;
  how : reply
}.

(** The clock, in simulated seconds since the process started, and the
    calls made so far, oldest first. *)
Record World : Type := mkWorld {
  now : Z;
  trace : list occurrence
}.

Definition initial : World := {| now := 0; trace := [] |}.

(** The environment answers a call from the state of the world. *)
Definition Env : Type := World -> call -> reply.

(** The reply as the call can take it: the two replies of the logger are,
    for another call, a return and an interrupt raised at once. *)
Definition reply_to (c : call) (r : reply) : reply :=
  match c with
  | Log _ _ _ => r
  | _ =>
      match r with
      | LogLost => Returns
      | InterruptedAfterWrite => Raises KeyboardInterrupt 0
      | _ => r
      end
  end.

(** Seconds that pass during a call: only sleeping takes simulated time, a
    full sleep the time asked for, an interrupted one a part of it. *)
Definition elapsed_time (c : call) (r : reply) : Z :=
  match c, r with
  | Sleep secs, Returns => secs
  | Sleep secs, Raises _ dt => Z.max 0 (Z.min dt secs)
  | _, _ => 0
  end.

(** The world after call [c] was answered by [r]. *)
Definition after (w : World) (c : call) (r : reply) : World :=
  {| now := now w + elapsed_time c r;
     trace := trace w ++ [ {| at_time := now w + elapsed_time c r;
                              what := c; how := r |} ] |}.

(** The record a logger call leaves in the file: the record of a call that
    returned or was interrupted after the write; none when the call raised
    before writing, none when the handler lost it, none below the
    configured level. *)
Definition record_of (o : occurrence) : list LogRecord :=
  match what o with
  | Log lvl msg x =>
      match how o with
      | Returns | InterruptedAfterWrite =>
          if levelno configured_level <=? levelno lvl
          then [ {| asctime := at_time o; name := logger_name;
                    levelname := lvl; message := msg;
                    exc_text := option_map exc_traceback x |} ]
          else []
      | _ => []
      end
  | _ => []
  end.

(** The records of this run in [agent_core.log].  The file is opened in
    append mode: what earlier runs wrote stays above these records. *)
Definition logfile (w : World) : list LogRecord :=
  flat_map record_of (trace w).

Definition printed_of (o : occurrence) : list string :=
  match what o, how o with
  | PrintLine msg, Returns => [msg]
  | _, _ => []
  end.

Definition stdout (w : World) : list string :=
  flat_map printed_of (trace w).

Definition messages (w : World) : list string := map message (logfile w).

(** Number of records of a level in the file. *)
Definition is_level (l : level) (r : LogRecord) : bool :=
  Z.eqb (levelno (levelname r)) (levelno l).

Definition count_level (l : level) (w : World) : nat :=
  List.length (filter (is_level l) (logfile w)).

(** ** A state and exception monad *)

Definition M (A : Type) : Type := World -> outcome A * World.

Definition ret {A} (a : A) : M A := fun w => (Ok a, w).

Definition bind {A B} (m : M A) (k : A -> M B) : M B :=
  fun w =>
    match m w with
    | (Ok a, w') => k a w'
    | (Raise e, w') => (Raise e, w')
    end.

Notation "m ;; k" := (bind m (fun _ => k))
  (at level 61, right associativity).

Notation "x <- m ;; k" := (bind m (fun x => k))
  (at level 61, m at next level, right associativity).

(** [try: body except <clauses>]: [clauses e] is the body of the first
    clause that matches [e], if any.  A handler runs outside the [try]:
    what it raises leaves the statement. *)
Definition try_except {A} (body : M A) (clauses : exn -> option (M A)) : M A :=
  fun w =>
    match body w with
    | (Ok a, w') => (Ok a, w')
    | (Raise e, w') =>
        match clauses e with
        | Some handler => handler w'
        | None => (Raise e, w')
        end
    end.

(** How an iteration of [while True] ends: at the end of its body, or by
    [break]. *)
Inductive ctl : Type := Next | Break.

(** What is known of a run after a number of iterations. *)
Inductive status : Type :=
| Running
| Returned
| Propagated (e : exn).

(** How a call ends, by its reply. *)
Definition result_of (r : reply) : outcome unit :=
  match r with
  | Returns => Ok tt
  | LogLost => Ok tt
  | Raises e _ => Raise e
  | InterruptedAfterWrite => Raise KeyboardInterrupt
  end.

Section Program.

Variable env : Env.

Definition perform (c : call) : M unit :=
  fun w =>
    let r := reply_to c (env w c) in
    (result_of r, after w c r).

Definition time_sleep (secs : Z) : M unit := perform (Sleep secs).
Definition logger_info (msg : string) : M unit := perform (Log INFO msg None).
Definition logger_error (msg : string) : M unit := perform (Log ERROR msg None).
Definition print (msg : string) : M unit := perform (PrintLine msg).

(** The f-string of line 30, [f"Error in agent loop: {e}"]. *)
Definition fstring (e : exn) : M string :=
  fun w =>
    match str e with
    | Ok s => (Ok ("Error in agent loop: " ++ s)%string, w)
    | Raise e' => (Raise e', w)
    end.

(** Lines 23-24, the body of the [try]. *)
Definition tick_body : M ctl :=
  time_sleep 10 ;;
  logger_info "Agent heartbeat" ;;
  ret Next.

(** Lines 27-28. *)
Definition on_KeyboardInterrupt : M ctl :=
  logger_info "Agent stopping" ;;
  ret Break.

(** Lines 30-31. *)
Definition on_Exception (e : exn) : M ctl :=
  msg <- fstring e ;;
  logger_error msg ;;
  time_sleep 5 ;;
  ret Next.

(** Lines 26 and 29, the clauses in their order. *)
Definition except_clauses (e : exn) : option (M ctl) :=
  if is_KeyboardInterrupt e then Some on_KeyboardInterrupt
  else if is_Exception e then Some (on_Exception e)
  else None.

(** Lines 20-31, one iteration. *)
Definition loop_body : M ctl := try_except tick_body except_clauses.

(** Lines 19-31, [while True], for [fuel] iterations at most.  An iteration
    that ends its body jumps back to line 19. *)
Fixpoint while_true (fuel : nat) (w : World) : status * World :=
  match fuel with
  | O => (Running, w)
  | S fuel' =>
      match loop_body w with
      | (Ok Next, w') =>
          match perform BackEdge w' with
          | (Ok _, w'') => while_true fuel' w''
          | (Raise e, w'') => (Propagated e, w'')
          end
      | (Ok Break, w') => (Returned, w')
      | (Raise e, w') => (Propagated e, w')
      end
  end.

(** Lines 15-16. *)
Definition startup : M unit :=
  logger_info "Agent Core started" ;;
  print "Agent Core started".

(** Lines 14-31. *)
Definition main (fuel : nat) (w : World) : status * World :=
  match startup w with
  | (Ok _, w') => while_true fuel w'
  | (Raise e, w') => (Propagated e, w')
  end.

End Program.

(** ** Environments *)

(** Nothing ever fails and no signal arrives. *)
Definition quiet : Env := fun _ _ => Returns.

(** Nothing fails, and the process receives SIGINT [c] seconds after it
    started: the sleep in progress then raises [KeyboardInterrupt]. *)
Definition cancel_at (c : Z) : Env :=
  fun w call =>
    match call with
    | Sleep secs =>
        if c <? now w + secs then Raises KeyboardInterrupt (c - now w)
        else Returns
    | _ => Returns
    end.

(** The tick body fails with [e] whenever it sleeps, nothing else fails and
    no signal arrives. *)
Definition failing_ticks (e : exn) : Env :=
  fun _ call =>
    match call with
    | Sleep secs => if secs =? 10 then Raises e 0 else Returns
    | _ => Returns
    end.

(** The first tick body fails with [e], and SIGINT arrives [dt] seconds
    into the sleep that follows the logging of that failure. *)
Definition cancel_in_backoff (e : exn) (dt : Z) : Env :=
  fun _ call =>
    match call with
    | Sleep secs =>
        if secs =? 10 then Raises e 0 else Raises KeyboardInterrupt dt
    | _ => Returns
    end.


(** SIGINT arrives while the heartbeat is being logged, before the record
    is written. *)
Definition cancel_while_logging : Env :=
  fun _ call =>
    match call with
    | Log INFO msg _ =>
        if String.eqb msg "Agent heartbeat" then Raises KeyboardInterrupt 0
        else Returns
    | _ => Returns
    end.

(** SIGINT arrives while the heartbeat is being logged, after the record
    was written. *)
Definition cancel_after_the_write : Env :=
  fun _ call =>
    match call with
    | Log INFO msg _ =>
        if String.eqb msg "Agent heartbeat" then InterruptedAfterWrite
        else Returns
    | _ => Returns
    end.

(** SIGINT arrives between two calls, and its handler runs at the jump
    back to [while True:]. *)
Definition cancel_at_the_back_edge : Env :=
  fun _ call =>
    match call with
    | BackEdge => Raises KeyboardInterrupt 0
    | _ => Returns
    end.

(** Every sleep fails with [e], the backoff sleep too. *)
Definition failing_sleeps (e : exn) : Env :=
  fun _ call =>
    match call with
    | Sleep _ => Raises e 0
    | _ => Returns
    end.

(** An exception whose [__str__] returns [None]: [str(e)] raises this
    [TypeError]. *)
Definition str_TypeError : exn :=
  PyException "TypeError" "__str__ returned non-string (type NoneType)" [].

Definition undescribable : exn := Undescribable "AgentError" str_TypeError [].

(** ** Vocabulary of the properties *)

(** From [w] on, the environment answers the calls of [cs], made in that
    order, as [cs] says. *)
Fixpoint answers (env : Env) (w : World) (cs : list (call * reply)) : Prop :=
  match cs with
  | [] => True
  | (c, r) :: cs' => reply_to c (env w c) = r /\ answers env (after w c r) cs'
  end.

(** The calls of the source, by the line they stand on; [log_error s] is
    the call of line 30 when [str(e)] gave [s]. *)
Definition log_started : call := Log INFO "Agent Core started" None.
Definition print_started : call := PrintLine "Agent Core started".
Definition interval_sleep : call := Sleep 10.
Definition log_heartbeat : call := Log INFO "Agent heartbeat" None.
Definition log_stopping : call := Log INFO "Agent stopping" None.
Definition log_error (s : string) : call :=
  Log ERROR ("Error in agent loop: " ++ s)%string None.
Definition backoff_sleep : call := Sleep 5.

(** The records these calls leave at time [t]. *)
Definition info_record (t : Z) (msg : string) : LogRecord :=
  {| asctime := t; name := "AgentCore"; levelname := INFO;
     message := msg; exc_text := None |}.

Definition error_record (t : Z) (s : string) : LogRecord :=
  {| asctime := t; name := "AgentCore"; levelname := ERROR;
     message := ("Error in agent loop: " ++ s)%string; exc_text := None |}.

(** The heartbeat records of [k] undisturbed iterations begun at time [t]. *)
Fixpoint heartbeats (t : Z) (k : nat) : list LogRecord :=
  match k with
  | O => []
  | S k' => info_record (t + 10) "Agent heartbeat" :: heartbeats (t + 10) k'
  end.






(** The handler of the logger never loses a record. *)
Definition never_lost (env : Env) : Prop :=
  forall w c, env w c <> LogLost.

Definition is_sleep (o : occurrence) : bool :=
  match what o with Sleep _ => true | _ => false end.

Definition is_interval_sleep (o : occurrence) : bool :=
  match what o with Sleep secs => secs =? 10 | _ => false end.

(** Number of iterations begun so far: each begins with the interval
    sleep of line 23. *)
Definition ticks (w : World) : nat :=
  List.length (filter is_interval_sleep (trace w)).

Definition is_error_call (o : occurrence) : bool :=
  match what o with Log ERROR _ _ => true | _ => false end.

(** The durations asked of [time.sleep] along a history: the sleep that
    directly follows a [logger.error] call is the error backoff and asks for
    [backoff] seconds, every other sleep is the interval and asks for
    [interval] seconds.  [prev] tells whether the call before the history
    was a [logger.error]. *)
Fixpoint sleeps_fixed (interval backoff : Z) (prev : bool)
         (tr : list occurrence) : bool :=
  match tr with
  | [] => true
  | o :: tr' =>
      match what o with
      | Sleep secs => if prev then secs =? backoff else secs =? interval
      | _ => true
      end
      && sleeps_fixed interval backoff (is_error_call o) tr'
  end.

(** Whether the last call of a history was a [logger.error], [prev]
    standing for the call before the history. *)
Fixpoint last_is_error (prev : bool) (tr : list occurrence) : bool :=
  match tr with
  | [] => prev
  | o :: tr' => last_is_error (is_error_call o) tr'
  end.

(** The invariant of the loop on the durations asked of [time.sleep]: it
    holds between iterations. *)
Definition durations_invariant (w : World) : Prop :=
  sleeps_fixed 10 5 false (trace w) = true
  /\ last_is_error false (trace w) = false.

(** Every sleep of a history asks for one of the two durations. *)
Definition sleep_durations_in (ds : list Z) (tr : list occurrence) : Prop :=
  forall o secs, In o tr -> what o = Sleep secs -> In secs ds.

(** ** The paths through one iteration *)

(** The records one iteration adds to the file. *)
Definition emitted (env : Env) (w : World) : list LogRecord :=
  skipn (List.length (logfile w)) (logfile (snd (loop_body env w))).

(** What the [except] clauses do with [e], raised by the body of the [try]
    and leaving the world [w1]: the ways through lines 26-31. *)
Inductive handles (env : Env) (w1 : World) : exn -> outcome ctl -> World -> Prop :=
| stop_logged w2 :
    perform env log_stopping w1 = (Ok tt, w2) ->
    handles env w1 KeyboardInterrupt (Ok Break) w2
| stop_log_raises e' w2 :
    perform env log_stopping w1 = (Raise e', w2) ->
    handles env w1 KeyboardInterrupt (Raise e') w2
| error_handled e s w2 w3 :
    is_Exception e = true -> str e = Ok s ->
    perform env (log_error s) w1 = (Ok tt, w2) ->
    perform env backoff_sleep w2 = (Ok tt, w3) ->
    handles env w1 e (Ok Next) w3
| backoff_raises e s e' w2 w3 :
    is_Exception e = true -> str e = Ok s ->
    perform env (log_error s) w1 = (Ok tt, w2) ->
    perform env backoff_sleep w2 = (Raise e', w3) ->
    handles env w1 e (Raise e') w3
| error_log_raises e s e' w2 :
    is_Exception e = true -> str e = Ok s ->
    perform env (log_error s) w1 = (Raise e', w2) ->
    handles env w1 e (Raise e') w2
| description_raises e e' :
    is_Exception e = true -> str e = Raise e' ->
    handles env w1 e (Raise e') w1
| not_handled cls :
    handles env w1 (BaseOnly cls) (Raise (BaseOnly cls)) w1.

(** The ways through lines 20-31 from the world [w]. *)
Inductive iterates (env : Env) (w : World) : outcome ctl -> World -> Prop :=
| heartbeat_logged w1 w2 :
    perform env interval_sleep w = (Ok tt, w1) ->
    perform env log_heartbeat w1 = (Ok tt, w2) ->
    iterates env w (Ok Next) w2
| sleep_raises e w1 r w' :
    perform env interval_sleep w = (Raise e, w1) ->
    handles env w1 e r w' ->
    iterates env w r w'
| heartbeat_raises e w1 w2 r w' :
    perform env interval_sleep w = (Ok tt, w1) ->
    perform env log_heartbeat w1 = (Raise e, w2) ->
    handles env w2 e r w' ->
    iterates env w r w'.

(** ** Vocabulary of the properties of whole runs *)

(** The calls written in [main], and the jump back of the loop. *)
Definition source_call (c : call) : Prop :=
  c = log_started \/ c = print_started \/ c = interval_sleep
  \/ c = log_heartbeat \/ c = log_stopping \/ c = backoff_sleep
  \/ c = BackEdge \/ exists s, c = log_error s.

(** The record of a tick: a heartbeat, or an error. *)
Definition tick_record (r : LogRecord) : Prop :=
  (exists t, r = info_record t "Agent heartbeat")
  \/ (exists t s, r = error_record t s).

Definition is_heartbeat (r : LogRecord) : bool :=
  String.eqb (message r) "Agent heartbeat".

(** The time stamp of the last record of a file, [t] for an empty one. *)
Fixpoint last_stamp (t : Z) (rs : list LogRecord) : Z :=
  match rs with
  | [] => t
  | r :: rs' => last_stamp (asctime r) rs'
  end.

(** The pace of a file whose records follow one stamped [prev]: no record
    is stamped before the one it follows, and a heartbeat is stamped 10
    seconds or more after the one it follows. *)
Fixpoint paced (prev : Z) (rs : list LogRecord) : bool :=
  match rs with
  | [] => true
  | r :: rs' =>
      (prev <=? asctime r)
      && (if is_heartbeat r then prev + 10 <=? asctime r else true)
      && paced (asctime r) rs'
  end.

(** What holds of the clock and of the file between two calls. *)
Definition pace_invariant (w : World) : Prop :=
  paced 0 (logfile w) = true /\ last_stamp 0 (logfile w) <= now w.

(** A file before any stopping record: the start record, if it was stored,
    then records of ticks. *)
Definition ticking (w : World) : Prop :=
  exists head mid,
    logfile w = head ++ mid
    /\ (head = [] \/ head = [info_record 0 "Agent Core started"])
    /\ Forall tick_record mid.

(** The file of a run that stands at [st]: as above, then at most one
    stopping record, written by the iteration that ended the run. *)
Definition shaped (st : status) (w : World) : Prop :=
  exists head mid tail,
    logfile w = head ++ mid ++ tail
    /\ (head = [] \/ head = [info_record 0 "Agent Core started"])
    /\ Forall tick_record mid
    /\ (tail = []
        \/ exists t, tail = [info_record t "Agent stopping"] /\ st <> Running).

(** Every call of a history is one of the calls written in [main]. *)
Definition calls_of_main (w : World) : Prop :=
  Forall (fun o => source_call (what o)) (trace w).

(** * Properties *)

(** ** The model at work *)

Example three_quiet_iterations :
  fst (main quiet 3 initial) = Running
  /\ messages (snd (main quiet 3 initial))
     = ["Agent Core started"; "Agent heartbeat"; "Agent heartbeat";
        "Agent heartbeat"]
  /\ stdout (snd (main quiet 3 initial)) = ["Agent Core started"]
  /\ now (snd (main quiet 3 initial)) = 30.
Proof. repeat split. Qed.

Example two_failing_ticks :
  let e := PyException "OSError" "connection refused" [] in
  fst (main (failing_ticks e) 2 initial) = Running
  /\ messages (snd (main (failing_ticks e) 2 initial))
     = ["Agent Core started"; "Error in agent loop: connection refused";
        "Error in agent loop: connection refused"]
  /\ now (snd (main (failing_ticks e) 2 initial)) = 10.
Proof. repeat split. Qed.

Example system_exit_is_not_caught :
  fst (main (failing_ticks (BaseOnly "SystemExit")) 5 initial)
  = Propagated (BaseOnly "SystemExit")
  /\ messages (snd (main (failing_ticks (BaseOnly "SystemExit")) 5 initial))
     = ["Agent Core started"].
Proof. repeat split. Qed.

Example interrupted_at_once :
  main (cancel_at 0) 1 initial = main (cancel_at 0) 7 initial
  /\ fst (main (cancel_at 0) 1 initial) = Returned
  /\ messages (snd (main (cancel_at 0) 1 initial))
     = ["Agent Core started"; "Agent stopping"].
Proof. repeat split. Qed.

Example heartbeat_written_then_interrupted :
  fst (main cancel_after_the_write 3 initial) = Returned
  /\ messages (snd (main cancel_after_the_write 3 initial))
     = ["Agent Core started"; "Agent heartbeat"; "Agent stopping"]
  /\ now (snd (main cancel_after_the_write 3 initial)) = 10.
Proof. repeat split. Qed.

Example heartbeat_interrupted_before_the_write :
  fst (main cancel_while_logging 3 initial) = Returned
  /\ messages (snd (main cancel_while_logging 3 initial))
     = ["Agent Core started"; "Agent stopping"]
  /\ now (snd (main cancel_while_logging 3 initial)) = 10.
Proof. repeat split. Qed.

Example interrupted_at_the_jump_back :
  fst (main cancel_at_the_back_edge 3 initial) = Propagated KeyboardInterrupt
  /\ messages (snd (main cancel_at_the_back_edge 3 initial))
     = ["Agent Core started"; "Agent heartbeat"].
Proof. repeat split. Qed.

Example failing_backoff_leaves_main :
  let e := PyException "OSError" "[Errno 22] Invalid argument" [] in
  fst (main (failing_sleeps e) 3 initial) = Propagated e
  /\ messages (snd (main (failing_sleeps e) 3 initial))
     = ["Agent Core started";
        "Error in agent loop: [Errno 22] Invalid argument"].
Proof. repeat split. Qed.

Example undescribable_error_leaves_main :
  fst (main (failing_ticks undescribable) 3 initial) = Propagated str_TypeError
  /\ messages (snd (main (failing_ticks undescribable) 3 initial))
     = ["Agent Core started"].
Proof. repeat split. Qed.

Arguments after : simpl never.

Ltac source_calls :=
  unfold interval_sleep, backoff_sleep, log_started, print_started,
    log_heartbeat, log_stopping, log_error in *.

(** ** The world after a call *)

Lemma now_after (w : World) (c : call) (r : reply) :
  now (after w c r) = now w + elapsed_time c r.
Proof. reflexivity. Qed.

Lemma trace_after (w : World) (c : call) (r : reply) :
  trace (after w c r)
  = trace w ++ [mkOccurrence (now w + elapsed_time c r) c r].
Proof. reflexivity. Qed.

Lemma logfile_after (w : World) (c : call) (r : reply) :
  logfile (after w c r)
  = logfile w ++ record_of (mkOccurrence (now w + elapsed_time c r) c r).
Proof.
  unfold logfile. rewrite trace_after, flat_map_app. simpl.
  now rewrite app_nil_r.
Qed.

Lemma stdout_after (w : World) (c : call) (r : reply) :
  stdout (after w c r)
  = stdout w ++ printed_of (mkOccurrence (now w + elapsed_time c r) c r).
Proof.
  unfold stdout. rewrite trace_after, flat_map_app. simpl.
  now rewrite app_nil_r.
Qed.

Ltac read_log :=
  rewrite ?logfile_after; unfold record_of; source_calls; simpl;
  rewrite ?app_nil_r, ?Z.add_0_r.

Ltac read_clock :=
  rewrite ?now_after; source_calls; cbn [elapsed_time].

Ltac read_stdout :=
  rewrite ?stdout_after; unfold printed_of; source_calls; simpl;
  rewrite ?app_nil_r.

Lemma count_level_app (l : level) (w w' : World) (rs : list LogRecord) :
  logfile w' = logfile w ++ rs ->
  count_level l w' = (count_level l w + List.length (filter (is_level l) rs))%nat.
Proof.
  intros H. unfold count_level. now rewrite H, filter_app, length_app.
Qed.

(** ** One call *)

Section Semantics.

Variable env : Env.

Lemma perform_answer (w : World) (c : call) (r : reply) :
  reply_to c (env w c) = r -> perform env c w = (result_of r, after w c r).
Proof. intros H. unfold perform. now rewrite H. Qed.

Lemma perform_returns (w : World) (c : call) :
  reply_to c (env w c) = Returns ->
  perform env c w = (Ok tt, after w c Returns).
Proof. apply perform_answer. Qed.

Lemma perform_raises (w : World) (c : call) (e : exn) (dt : Z) :
  reply_to c (env w c) = Raises e dt ->
  perform env c w = (Raise e, after w c (Raises e dt)).
Proof. apply perform_answer. Qed.

Lemma perform_inv (w w' : World) (c : call) (res : outcome unit) :
  perform env c w = (res, w') ->
  exists r, reply_to c (env w c) = r /\ res = result_of r /\ w' = after w c r.
Proof.
  unfold perform. intros H. injection H as <- <-. eauto.
Qed.

(** A call that is not a logger call returns or raises before any effect. *)
Lemma plain_reply (c : call) (r : reply) :
  (forall lvl msg x, c <> Log lvl msg x) ->
  reply_to c r = Returns \/ exists e dt, reply_to c r = Raises e dt.
Proof.
  intros Hc. destruct c as [ secs | lvl msg x | msg | ];
    try (now destruct (Hc lvl msg x));
    destruct r; simpl; eauto.
Qed.

Lemma plain_ok (w w' : World) (c : call) :
  (forall lvl msg x, c <> Log lvl msg x) ->
  perform env c w = (Ok tt, w') ->
  reply_to c (env w c) = Returns /\ w' = after w c Returns.
Proof.
  intros Hc H. destruct (perform_inv _ _ _ _ H) as (r & Hr & Hres & ->).
  destruct (plain_reply c (env w c) Hc) as [ Hp | (e & dt & Hp) ];
    rewrite Hp in Hr; subst r; [ auto | discriminate ].
Qed.

Lemma plain_raise (w w' : World) (c : call) (e : exn) :
  (forall lvl msg x, c <> Log lvl msg x) ->
  perform env c w = (Raise e, w') ->
  exists dt, reply_to c (env w c) = Raises e dt /\ w' = after w c (Raises e dt).
Proof.
  intros Hc H. destruct (perform_inv _ _ _ _ H) as (r & Hr & Hres & ->).
  destruct (plain_reply c (env w c) Hc) as [ Hp | (e0 & dt & Hp) ];
    rewrite Hp in Hr; subst r; [ discriminate | ].
  injection Hres as ->. eauto.
Qed.

(** The four ways of a logger call. *)
Lemma log_ok (w w' : World) (lvl : level) (msg : string) (x : option exn) :
  perform env (Log lvl msg x) w = (Ok tt, w') ->
  (env w (Log lvl msg x) = Returns /\ w' = after w (Log lvl msg x) Returns)
  \/ (env w (Log lvl msg x) = LogLost /\ w' = after w (Log lvl msg x) LogLost).
Proof.
  intros H. destruct (perform_inv _ _ _ _ H) as (r & Hr & Hres & ->).
  simpl in Hr. subst r. destruct (env w (Log lvl msg x)); try discriminate; auto.
Qed.

Lemma log_raise (w w' : World) (lvl : level) (msg : string) (x : option exn)
      (e : exn) :
  perform env (Log lvl msg x) w = (Raise e, w') ->
  (exists dt, env w (Log lvl msg x) = Raises e dt
              /\ w' = after w (Log lvl msg x) (Raises e dt))
  \/ (e = KeyboardInterrupt
      /\ env w (Log lvl msg x) = InterruptedAfterWrite
      /\ w' = after w (Log lvl msg x) InterruptedAfterWrite).
Proof.
  intros H. destruct (perform_inv _ _ _ _ H) as (r & Hr & Hres & ->).
  simpl in Hr. subst r.
  destruct (env w (Log lvl msg x)); try discriminate;
    injection Hres as ->; eauto.
Qed.

(** ** One iteration *)

(** The statement [try ... except ...], clause by clause. *)
Lemma loop_body_ok (w w1 : World) (c : ctl) :
  tick_body env w = (Ok c, w1) -> loop_body env w = (Ok c, w1).
Proof. intros H. unfold loop_body, try_except. now rewrite H. Qed.

Lemma loop_body_KeyboardInterrupt (w w1 : World) :
  tick_body env w = (Raise KeyboardInterrupt, w1) ->
  loop_body env w = on_KeyboardInterrupt env w1.
Proof. intros H. unfold loop_body, try_except. now rewrite H. Qed.

Lemma loop_body_Exception (w w1 : World) (e : exn) :
  tick_body env w = (Raise e, w1) -> is_Exception e = true ->
  loop_body env w = on_Exception env e w1.
Proof.
  intros H He. unfold loop_body, try_except. rewrite H.
  destruct e; try discriminate; reflexivity.
Qed.

Lemma loop_body_BaseOnly (w w1 : World) (cls : string) :
  tick_body env w = (Raise (BaseOnly cls), w1) ->
  loop_body env w = (Raise (BaseOnly cls), w1).
Proof. intros H. unfold loop_body, try_except. now rewrite H. Qed.

(** The body of the [try], call by call. *)
Lemma tick_body_calls (w : World) :
  tick_body env w
  = match perform env interval_sleep w with
    | (Ok _, w1) =>
        match perform env log_heartbeat w1 with
        | (Ok _, w2) => (Ok Next, w2)
        | (Raise e, w2) => (Raise e, w2)
        end
    | (Raise e, w1) => (Raise e, w1)
    end.
Proof.
  reflexivity.
Qed.

Lemma tick_body_succeeds (w : World) :
  answers env w [(interval_sleep, Returns); (log_heartbeat, Returns)] ->
  tick_body env w
  = (Ok Next, after (after w interval_sleep Returns) log_heartbeat Returns).
Proof.
  intros (H1 & H2 & _). rewrite tick_body_calls.
  rewrite (perform_returns _ _ H1). now rewrite (perform_returns _ _ H2).
Qed.

Lemma tick_body_sleep_raises (w : World) (e : exn) (dt : Z) :
  reply_to interval_sleep (env w interval_sleep) = Raises e dt ->
  tick_body env w = (Raise e, after w interval_sleep (Raises e dt)).
Proof.
  intros H. rewrite tick_body_calls. now rewrite (perform_raises _ _ _ _ H).
Qed.

Lemma tick_body_log_raises (w : World) (e : exn) (dt : Z) :
  answers env w [(interval_sleep, Returns); (log_heartbeat, Raises e dt)] ->
  tick_body env w
  = (Raise e, after (after w interval_sleep Returns) log_heartbeat (Raises e dt)).
Proof.
  intros (H1 & H2 & _). rewrite tick_body_calls.
  rewrite (perform_returns _ _ H1). now rewrite (perform_raises _ _ _ _ H2).
Qed.

Lemma tick_body_log_interrupted (w : World) :
  answers env w [(interval_sleep, Returns);
                 (log_heartbeat, InterruptedAfterWrite)] ->
  tick_body env w
  = (Raise KeyboardInterrupt,
     after (after w interval_sleep Returns) log_heartbeat InterruptedAfterWrite).
Proof.
  intros (H1 & H2 & _). rewrite tick_body_calls.
  rewrite (perform_returns _ _ H1). now rewrite (perform_answer _ _ _ H2).
Qed.

(** The two handlers, call by call. *)
Lemma on_KeyboardInterrupt_calls (w : World) :
  on_KeyboardInterrupt env w
  = match perform env log_stopping w with
    | (Ok _, w1) => (Ok Break, w1)
    | (Raise e, w1) => (Raise e, w1)
    end.
Proof.
  reflexivity.
Qed.

Lemma on_Exception_calls (w : World) (e : exn) (s : string) :
  str e = Ok s ->
  on_Exception env e w
  = match perform env (log_error s) w with
    | (Ok _, w1) =>
        match perform env backoff_sleep w1 with
        | (Ok _, w2) => (Ok Next, w2)
        | (Raise e', w2) => (Raise e', w2)
        end
    | (Raise e', w1) => (Raise e', w1)
    end.
Proof.
  intros Hs.
  unfold on_Exception, bind, fstring, logger_error, time_sleep, ret.
  rewrite Hs. reflexivity.
Qed.

Lemma on_Exception_undescribable (w : World) (e e' : exn) :
  str e = Raise e' -> on_Exception env e w = (Raise e', w).
Proof.
  intros Hs. unfold on_Exception, bind, fstring. now rewrite Hs.
Qed.

Lemma on_KeyboardInterrupt_returns (w : World) :
  reply_to log_stopping (env w log_stopping) = Returns ->
  on_KeyboardInterrupt env w = (Ok Break, after w log_stopping Returns).
Proof.
  intros H. rewrite on_KeyboardInterrupt_calls.
  now rewrite (perform_returns _ _ H).
Qed.

Lemma on_Exception_returns (w : World) (e : exn) (s : string) :
  str e = Ok s ->
  answers env w [(log_error s, Returns); (backoff_sleep, Returns)] ->
  on_Exception env e w
  = (Ok Next, after (after w (log_error s) Returns) backoff_sleep Returns).
Proof.
  intros Hs (H1 & H2 & _). rewrite (on_Exception_calls w e s Hs).
  rewrite (perform_returns _ _ H1). now rewrite (perform_returns _ _ H2).
Qed.

Lemma on_Exception_sleep_raises (w : World) (e e' : exn) (s : string) (dt : Z) :
  str e = Ok s ->
  answers env w [(log_error s, Returns); (backoff_sleep, Raises e' dt)] ->
  on_Exception env e w
  = (Raise e', after (after w (log_error s) Returns)
                     backoff_sleep (Raises e' dt)).
Proof.
  intros Hs (H1 & H2 & _). rewrite (on_Exception_calls w e s Hs).
  rewrite (perform_returns _ _ H1). now rewrite (perform_raises _ _ _ _ H2).
Qed.

End Semantics.

(** ** The loop *)

Lemma while_true_break (env : Env) (fuel : nat) (w w' : World) :
  loop_body env w = (Ok Break, w') ->
  while_true env (S fuel) w = (Returned, w').
Proof. intros H. cbn [while_true]. now rewrite H. Qed.

Lemma while_true_raise (env : Env) (fuel : nat) (w w' : World) (e : exn) :
  loop_body env w = (Raise e, w') ->
  while_true env (S fuel) w = (Propagated e, w').
Proof. intros H. cbn [while_true]. now rewrite H. Qed.

Lemma while_true_next (env : Env) (fuel : nat) (w w' w'' : World) :
  loop_body env w = (Ok Next, w') ->
  perform env BackEdge w' = (Ok tt, w'') ->
  while_true env (S fuel) w = while_true env fuel w''.
Proof. intros H Hb. cbn [while_true]. now rewrite H, Hb. Qed.

Lemma while_true_interrupted (env : Env) (fuel : nat) (w w' w'' : World)
      (e : exn) :
  loop_body env w = (Ok Next, w') ->
  perform env BackEdge w' = (Raise e, w'') ->
  while_true env (S fuel) w = (Propagated e, w'').
Proof. intros H Hb. cbn [while_true]. now rewrite H, Hb. Qed.

(** ** Every iteration takes one of the paths *)

Lemma handlers_handle (env : Env) (w w1 : World) (e : exn) :
  tick_body env w = (Raise e, w1) ->
  handles env w1 e (fst (loop_body env w)) (snd (loop_body env w)).
Proof.
  intros Ht. destruct e as [ | cls | cls msg tb | cls e' tb ].
  - rewrite (loop_body_KeyboardInterrupt env w w1 Ht),
      on_KeyboardInterrupt_calls.
    destruct (perform env log_stopping w1) as [ [ [] | e' ] w2 ] eqn:Hs;
      cbn [fst snd]; now constructor.
  - rewrite (loop_body_BaseOnly env w w1 cls Ht). apply not_handled.
  - set (e := PyException cls msg tb) in *.
    rewrite (loop_body_Exception env w w1 e Ht eq_refl),
      (on_Exception_calls env w1 e msg eq_refl).
    destruct (perform env (log_error msg) w1) as [ [ [] | e' ] w2 ] eqn:Hl.
    + destruct (perform env backoff_sleep w2) as [ [ [] | e' ] w3 ] eqn:Hs;
        cbn [fst snd].
      * now apply (error_handled env w1 e msg w2 w3).
      * now apply (backoff_raises env w1 e msg e' w2 w3).
    + cbn [fst snd]. now apply (error_log_raises env w1 e msg e' w2).
  - set (e := Undescribable cls e' tb) in *.
    rewrite (loop_body_Exception env w w1 e Ht eq_refl),
      (on_Exception_undescribable env w1 e e' eq_refl).
    cbn [fst snd]. now apply description_raises.
Qed.

Lemma loop_body_iterates (env : Env) (w : World) :
  iterates env w (fst (loop_body env w)) (snd (loop_body env w)).
Proof.
  destruct (perform env interval_sleep w) as [ [ [] | e ] w1 ] eqn:H1.
  - destruct (perform env log_heartbeat w1) as [ [ [] | e ] w2 ] eqn:H2.
    + rewrite (loop_body_ok env w w2 Next).
      * now apply (heartbeat_logged env w w1 w2).
      * now rewrite tick_body_calls, H1, H2.
    + apply (heartbeat_raises env w e w1 w2); trivial.
      apply handlers_handle. now rewrite tick_body_calls, H1, H2.
  - apply (sleep_raises env w e w1); trivial.
    apply handlers_handle. now rewrite tick_body_calls, H1.
Qed.

(** One step of the loop: the iteration, and the jump back when the
    iteration ended its body. *)
Lemma while_true_step (env : Env) (fuel : nat) (w : World) :
  (exists w1 w2,
      iterates env w (Ok Next) w1
      /\ perform env BackEdge w1 = (Ok tt, w2)
      /\ while_true env (S fuel) w = while_true env fuel w2)
  \/ (exists w1 w2 e,
         iterates env w (Ok Next) w1
         /\ perform env BackEdge w1 = (Raise e, w2)
         /\ while_true env (S fuel) w = (Propagated e, w2))
  \/ (exists w1,
         iterates env w (Ok Break) w1
         /\ while_true env (S fuel) w = (Returned, w1))
  \/ (exists w1 e,
         iterates env w (Raise e) w1
         /\ while_true env (S fuel) w = (Propagated e, w1)).
Proof.
  pose proof (loop_body_iterates env w) as Hi. cbn [while_true].
  destruct (loop_body env w) as [ [ [ | ] | e ] w1 ]; cbn [fst snd] in Hi.
  - destruct (perform env BackEdge w1) as [ [ [] | e ] w2 ] eqn:Hb.
    + left. exists w1, w2. auto.
    + right; left. exists w1, w2, e. auto.
  - right; right; left. exists w1. auto.
  - right; right; right. exists w1, e. auto.
Qed.

(** What every iteration and every jump back keep, the whole loop keeps. *)
Lemma while_true_invariant (env : Env) (P : World -> Prop) :
  (forall w r w', iterates env w r w' -> P w -> P w') ->
  (forall w res w', perform env BackEdge w = (res, w') -> P w -> P w') ->
  forall fuel w, P w -> P (snd (while_true env fuel w)).
Proof.
  intros Hiter Hback. induction fuel as [ | fuel IH ]; intros w Hw.
  - exact Hw.
  - destruct (while_true_step env fuel w)
      as [ (w1 & w2 & Hi & Hb & ->)
         | [ (w1 & w2 & e & Hi & Hb & ->)
           | [ (w1 & Hi & ->) | (w1 & e & Hi & ->) ] ] ]; cbn [snd]; eauto.
Qed.

(** ** The start-up lines *)

Lemma startup_cases (env : Env) (w : World) :
  (exists w1 w2,
      perform env log_started w = (Ok tt, w1)
      /\ perform env print_started w1 = (Ok tt, w2)
      /\ startup env w = (Ok tt, w2))
  \/ (exists e w1,
         perform env log_started w = (Raise e, w1)
         /\ startup env w = (Raise e, w1))
  \/ (exists e w1 w2,
         perform env log_started w = (Ok tt, w1)
         /\ perform env print_started w1 = (Raise e, w2)
         /\ startup env w = (Raise e, w2)).
Proof.
  unfold startup, bind, logger_info, print. fold log_started print_started.
  destruct (perform env log_started w) as [ [ [] | e ] w1 ] eqn:H1.
  - destruct (perform env print_started w1) as [ [ [] | e ] w2 ] eqn:H2.
    + left. exists w1, w2. auto.
    + right; right. exists e, w1, w2. auto.
  - right; left. exists e, w1. auto.
Qed.

Lemma main_started (env : Env) (fuel : nat) (w : World) :
  answers env w [(log_started, Returns); (print_started, Returns)] ->
  main env fuel w
  = while_true env fuel
               (after (after w log_started Returns) print_started Returns).
Proof.
  intros (H1 & H2 & _). unfold main, startup, bind, logger_info, print.
  fold log_started print_started.
  rewrite (perform_returns env _ _ H1). now rewrite (perform_returns env _ _ H2).
Qed.

(** The three ways of [main] through lines 15-16. *)
Lemma main_cases (env : Env) (fuel : nat) (w : World) :
  (exists w1 w2,
      perform env log_started w = (Ok tt, w1)
      /\ perform env print_started w1 = (Ok tt, w2)
      /\ startup env w = (Ok tt, w2)
      /\ main env fuel w = while_true env fuel w2)
  \/ (exists e w1,
         perform env log_started w = (Raise e, w1)
         /\ startup env w = (Raise e, w1)
         /\ main env fuel w = (Propagated e, w1))
  \/ (exists e w1 w2,
         perform env log_started w = (Ok tt, w1)
         /\ perform env print_started w1 = (Raise e, w2)
         /\ startup env w = (Raise e, w2)
         /\ main env fuel w = (Propagated e, w2)).
Proof.
  unfold main.
  destruct (startup_cases env w)
    as [ (w1 & w2 & H1 & H2 & H)
       | [ (e & w1 & H1 & H) | (e & w1 & w2 & H1 & H2 & H) ] ]; rewrite H.
  - left. exists w1, w2. auto.
  - right; left. exists e, w1. auto.
  - right; right. exists e, w1, w2. auto.
Qed.

(** ** What one call does to the clock, the file and the output *)


Lemma sleep_facts (env : Env) (w w' : World) (secs : Z) (res : outcome unit) :
  0 <= secs ->
  perform env (Sleep secs) w = (res, w') ->
  logfile w' = logfile w
  /\ stdout w' = stdout w
  /\ now w <= now w' <= now w + secs
  /\ (res = Ok tt -> now w' = now w + secs).
Proof.
  intros Hs H.
  assert (Hc : forall lvl msg x, Sleep secs <> Log lvl msg x) by discriminate.
  destruct res as [ [] | e ].
  - destruct (plain_ok env _ _ _ Hc H) as (_ & ->).
    split; [ now read_log | ]. split; [ now read_stdout | ].
    read_clock. split; [ lia | reflexivity ].
  - destruct (plain_raise env _ _ _ _ Hc H) as (dt & _ & ->).
    split; [ now read_log | ]. split; [ now read_stdout | ].
    read_clock. split; [ lia | discriminate ].
Qed.

Lemma back_edge_facts (env : Env) (w w' : World) (res : outcome unit) :
  perform env BackEdge w = (res, w') ->
  logfile w' = logfile w /\ stdout w' = stdout w /\ now w' = now w.
Proof.
  intros H. destruct (perform_inv env _ _ _ _ H) as (r & _ & _ & ->).
  split; [ now read_log | ]. split; [ now read_stdout | ].
  read_clock. lia.
Qed.

(** A logger call of [main], at INFO or at ERROR and without [exc_info]:
    it takes no time and prints nothing; its record is in the file when it
    returned, unless the handler lost it, and also when it was interrupted
    after the write. *)
Lemma log_facts (env : Env) (w w' : World) (lvl : level) (msg : string)
      (res : outcome unit) :
  lvl = INFO \/ lvl = ERROR ->
  perform env (Log lvl msg None) w = (res, w') ->
  now w' = now w
  /\ stdout w' = stdout w
  /\ ((logfile w'
       = logfile w ++ [ {| asctime := now w; name := "AgentCore";
                           levelname := lvl; message := msg;
                           exc_text := None |} ]
       /\ (res = Ok tt \/ res = Raise KeyboardInterrupt))
      \/ (logfile w' = logfile w
          /\ (res = Ok tt -> env w (Log lvl msg None) = LogLost))).
Proof.
  intros Hlvl H.
  destruct res as [ [] | e ].
  - destruct (log_ok env _ _ _ _ _ H) as [ (Hr & ->) | (Hr & ->) ].
    + split; [ read_clock; lia | ]. split; [ now read_stdout | ]. left.
      split; [ | auto ].
      destruct Hlvl as [ -> | -> ]; now read_log.
    + split; [ read_clock; lia | ]. split; [ now read_stdout | ]. right.
      split; [ now read_log | auto ].
  - destruct (log_raise env _ _ _ _ _ _ H) as [ (dt & Hr & ->) | (-> & Hr & ->) ].
    + split; [ read_clock; lia | ]. split; [ now read_stdout | ]. right.
      split; [ now read_log | discriminate ].
    + split; [ read_clock; lia | ]. split; [ now read_stdout | ]. left.
      split; [ | auto ].
      destruct Hlvl as [ -> | -> ]; now read_log.
Qed.

(** ** What one iteration does to the clock, the file and the output *)

(** The handlers: the output is left alone, at most 5 seconds pass, and
    the file gains nothing, or the stopping record, or the error record. *)
Lemma handles_summary (env : Env) (w1 w' : World) (e : exn) (r : outcome ctl) :
  handles env w1 e r w' ->
  stdout w' = stdout w1
  /\ now w1 <= now w' <= now w1 + 5
  /\ (r = Ok Next -> now w' = now w1 + 5)
  /\ ((logfile w' = logfile w1
       /\ (r = Ok Next \/ r = Ok Break -> exists w0 c, env w0 c = LogLost))
      \/ (logfile w' = logfile w1 ++ [info_record (now w1) "Agent stopping"]
          /\ e = KeyboardInterrupt /\ r <> Ok Next)
      \/ (exists s,
             logfile w' = logfile w1 ++ [error_record (now w1) s]
             /\ is_Exception e = true /\ r <> Ok Break))
  /\ (e = KeyboardInterrupt -> r <> Ok Next).
Proof.
  intros Hh. inversion Hh as [ w2 Hs | e' w2 Hs
                             | e0 s w2 w3 He Hd Hl Hs | e0 s e' w2 w3 He Hd Hl Hs
                             | e0 s e' w2 He Hd Hl | e0 e' He Hd | cls ]; subst.
  - destruct (log_facts env _ _ INFO _ _ (or_introl eq_refl) Hs)
      as (Hn & Ho & Hl).
    split; [ exact Ho | ]. split; [ lia | ]. split; [ discriminate | ].
    split; [ | discriminate ].
    destruct Hl as [ (Hl & _) | (Hl & Hlost) ].
    + right; left. split; [ exact Hl | ]. split; [ reflexivity | discriminate ].
    + left. split; [ exact Hl | ]. intros _. eauto.
  - destruct (log_facts env _ _ INFO _ _ (or_introl eq_refl) Hs)
      as (Hn & Ho & Hl).
    split; [ exact Ho | ]. split; [ lia | ]. split; [ discriminate | ].
    split; [ | discriminate ].
    destruct Hl as [ (Hl & _) | (Hl & _) ].
    + right; left. split; [ exact Hl | ]. split; [ reflexivity | discriminate ].
    + left. split; [ exact Hl | intros [ H | H ]; discriminate ].
  - destruct (log_facts env _ _ ERROR _ _ (or_intror eq_refl) Hl)
      as (Hn & Ho & Hf).
    destruct (sleep_facts env _ _ 5 _ ltac:(lia) Hs) as (Hl5 & Ho5 & Hn5 & Hok).
    specialize (Hok eq_refl).
    split; [ congruence | ]. split; [ lia | ]. split; [ intros _; lia | ].
    split; [ | intros ->; discriminate ].
    destruct Hf as [ (Hf & _) | (Hf & Hlost) ].
    + right; right. exists s. rewrite Hl5, Hf.
      split; [ reflexivity | ]. split; [ exact He | discriminate ].
    + left. split; [ congruence | ]. intros _. eauto.
  - destruct (log_facts env _ _ ERROR _ _ (or_intror eq_refl) Hl)
      as (Hn & Ho & Hf).
    destruct (sleep_facts env _ _ 5 _ ltac:(lia) Hs) as (Hl5 & Ho5 & Hn5 & _).
    split; [ congruence | ]. split; [ lia | ]. split; [ discriminate | ].
    split; [ | discriminate ].
    destruct Hf as [ (Hf & _) | (Hf & _) ].
    + right; right. exists s. rewrite Hl5, Hf.
      split; [ reflexivity | ]. split; [ exact He | discriminate ].
    + left. split; [ congruence | intros [ H | H ]; discriminate ].
  - destruct (log_facts env _ _ ERROR _ _ (or_intror eq_refl) Hl)
      as (Hn & Ho & Hf).
    split; [ exact Ho | ]. split; [ lia | ]. split; [ discriminate | ].
    split; [ | discriminate ].
    destruct Hf as [ (Hf & _) | (Hf & _) ].
    + right; right. exists s.
      split; [ exact Hf | ]. split; [ exact He | discriminate ].
    + left. split; [ exact Hf | intros [ H | H ]; discriminate ].
  - split; [ reflexivity | ]. split; [ lia | ]. split; [ discriminate | ].
    split; [ | discriminate ].
    left. split; [ reflexivity | intros [ H | H ]; discriminate ].
  - split; [ reflexivity | ]. split; [ lia | ]. split; [ discriminate | ].
    split; [ | discriminate ].
    left. split; [ reflexivity | intros [ H | H ]; discriminate ].
Qed.

(** The summary of an iteration: the output is left alone; the clock
    advances, by 15 seconds at most and by 5 at least when the iteration
    ends its body; the file gains nothing, or one record, or the heartbeat
    followed by the stopping record. *)
Lemma iterates_summary (env : Env) (w w' : World) (r : outcome ctl) :
  iterates env w r w' ->
  stdout w' = stdout w
  /\ now w <= now w' <= now w + 15
  /\ (r = Ok Next -> now w + 5 <= now w')
  /\ ((logfile w' = logfile w
       /\ (r = Ok Next \/ r = Ok Break -> exists w0 c, env w0 c = LogLost))
      \/ (logfile w' = logfile w ++ [info_record (now w + 10) "Agent heartbeat"]
          /\ now w + 10 <= now w'
          /\ (r = Ok Break -> exists w0 c, env w0 c = LogLost))
      \/ (exists t,
             logfile w' = logfile w ++ [info_record t "Agent stopping"]
             /\ r <> Ok Next /\ now w <= t <= now w')
      \/ (exists t s,
             logfile w' = logfile w ++ [error_record t s]
             /\ r <> Ok Break /\ now w <= t <= now w')
      \/ (logfile w'
          = logfile w ++ [info_record (now w + 10) "Agent heartbeat";
                          info_record (now w + 10) "Agent stopping"]
          /\ r <> Ok Next /\ now w + 10 <= now w')).
Proof.
  intros Hi.
  inversion Hi as [ w1 w2 Hs Hb | e w1 r0 w0 Hs Hh | e w1 w2 r0 w0 Hs Hb Hh ];
    subst.
  - destruct (sleep_facts env _ _ 10 _ ltac:(lia) Hs) as (Hl1 & Ho1 & Hn1 & Hok).
    specialize (Hok eq_refl).
    destruct (log_facts env _ _ INFO _ _ (or_introl eq_refl) Hb)
      as (Hn2 & Ho2 & Hl2).
    split; [ congruence | ]. split; [ lia | ]. split; [ intros _; lia | ].
    destruct Hl2 as [ (Hl2 & _) | (Hl2 & Hlost) ].
    + right; left. rewrite Hl2, Hl1, Hok.
      split; [ reflexivity | ]. split; [ lia | discriminate ].
    + left. split; [ congruence | ]. intros _. eauto.
  - destruct (sleep_facts env _ _ 10 _ ltac:(lia) Hs) as (Hl1 & Ho1 & Hn1 & _).
    destruct (handles_summary env w1 w' e r Hh)
      as (Ho & Hn & Hnext & Hl & _).
    split; [ congruence | ]. split; [ lia | ].
    split; [ intros Hr; specialize (Hnext Hr); lia | ].
    destruct Hl as [ (Hl & Hlost) | [ (Hl & _ & Hr) | (s & Hl & _ & Hr) ] ].
    + left. split; [ congruence | exact Hlost ].
    + right; right; left. exists (now w1). rewrite Hl, Hl1.
      split; [ reflexivity | ]. split; [ exact Hr | lia ].
    + right; right; right; left. exists (now w1), s. rewrite Hl, Hl1.
      split; [ reflexivity | ]. split; [ exact Hr | lia ].
  - destruct (sleep_facts env _ _ 10 _ ltac:(lia) Hs) as (Hl1 & Ho1 & Hn1 & Hok).
    specialize (Hok eq_refl).
    destruct (log_facts env _ _ INFO _ _ (or_introl eq_refl) Hb)
      as (Hn2 & Ho2 & Hl2).
    destruct (handles_summary env w2 w' e r Hh)
      as (Ho & Hn & Hnext & Hl & Hki).
    split; [ congruence | ]. split; [ lia | ].
    split; [ intros Hr; specialize (Hnext Hr); lia | ].
    destruct Hl2 as [ (Hl2 & [ Hres | Hres ]) | (Hl2 & _) ];
      [ discriminate | injection Hres as -> | ].
    + specialize (Hki eq_refl).
      destruct Hl as [ (Hl & Hlost) | [ (Hl & _ & Hr) | (s & _ & He & _) ] ];
        [ | | discriminate ].
      * right; left. rewrite Hl, Hl2, Hl1, Hok.
        split; [ reflexivity | ]. split; [ lia | ]. intros Hr. apply Hlost. now right.
      * right; right; right; right.
        rewrite Hl, Hl2, Hl1, Hn2, Hok, <- app_assoc.
        split; [ reflexivity | ]. split; [ exact Hr | lia ].
    + destruct Hl as [ (Hl & Hlost) | [ (Hl & _ & Hr) | (s & Hl & _ & Hr) ] ].
      * left. split; [ congruence | exact Hlost ].
      * right; right; left. exists (now w2). rewrite Hl, Hl2, Hl1.
        split; [ reflexivity | ]. split; [ exact Hr | lia ].
      * right; right; right; left. exists (now w2), s. rewrite Hl, Hl2, Hl1.
        split; [ reflexivity | ]. split; [ exact Hr | lia ].
Qed.

(** ** Histories *)

Ltac open_calls :=
  repeat match goal with
         | H : perform _ _ _ = (_, _) |- _ =>
             apply perform_inv in H; destruct H as (? & ? & ? & ->)
         end.



Lemma handles_extends (env : Env) (w1 w' : World) (e : exn) (r : outcome ctl) :
  handles env w1 e r w' -> exists new, trace w' = trace w1 ++ new.
Proof.
  intros Hh. inversion Hh; subst; open_calls;
    rewrite ?trace_after, <- ?app_assoc;
    try (eexists; reflexivity).
  - exists []. now rewrite app_nil_r.
  - exists []. now rewrite app_nil_r.
Qed.

Lemma iterates_extends (env : Env) (w w' : World) (r : outcome ctl) :
  iterates env w r w' -> exists new, trace w' = trace w ++ new.
Proof.
  intros Hi.
  inversion Hi as [ w1 w2 Hs Hb | e w1 r0 w0 Hs Hh | e w1 w2 r0 w0 Hs Hb Hh ];
    subst; try (destruct (handles_extends env _ _ _ _ Hh) as (new & ->));
    open_calls; rewrite ?trace_after, <- ?app_assoc; eexists; reflexivity.
Qed.

(** ** The durations asked of [time.sleep] *)

Lemma sleeps_fixed_app (i b : Z) (tr tr' : list occurrence) :
  forall prev,
    sleeps_fixed i b prev (tr ++ tr')
    = sleeps_fixed i b prev tr && sleeps_fixed i b (last_is_error prev tr) tr'.
Proof.
  induction tr as [ | o tr IH ]; intros prev; simpl.
  - reflexivity.
  - now rewrite IH, andb_assoc.
Qed.

Lemma last_is_error_app (tr tr' : list occurrence) :
  forall prev,
    last_is_error prev (tr ++ tr') = last_is_error (last_is_error prev tr) tr'.
Proof.
  induction tr as [ | o tr IH ]; intros prev; simpl; [ reflexivity | apply IH ].
Qed.

Lemma sleeps_fixed_durations (i b : Z) (tr : list occurrence) :
  forall prev,
    sleeps_fixed i b prev tr = true -> sleep_durations_in [i; b] tr.
Proof.
  induction tr as [ | o tr IH ]; intros prev H o' secs Hin Hw.
  - destruct Hin.
  - simpl in H. apply andb_true_iff in H as (Ho & Htr).
    destruct Hin as [ <- | Hin ]; [ | now apply (IH _ Htr o') ].
    rewrite Hw in Ho. destruct prev; apply Z.eqb_eq in Ho; subst; simpl; auto.
Qed.

Ltac read_trace :=
  rewrite ?trace_after, ?sleeps_fixed_app, ?last_is_error_app;
  source_calls; simpl.

Lemma iterates_durations (env : Env) (w w' : World) (r : outcome ctl) :
  iterates env w r w' ->
  durations_invariant w ->
  sleeps_fixed 10 5 false (trace w') = true
  /\ (r = Ok Next -> last_is_error false (trace w') = false).
Proof.
  intros Hi (Hs & Hl).
  inversion Hi as [ w1 w2 H1 H2 | e w1 r0 w0 H1 Hh | e w1 w2 r0 w0 H1 H2 Hh ];
    subst; try (inversion Hh; subst); open_calls;
    read_trace; rewrite ?Hs, ?Hl; simpl; auto; split; auto; discriminate.
Qed.

Lemma back_edge_durations (env : Env) (w w' : World) (res : outcome unit) :
  perform env BackEdge w = (res, w') ->
  durations_invariant w ->
  sleeps_fixed 10 5 false (trace w') = true
  /\ last_is_error false (trace w') = false.
Proof.
  intros H (Hs & Hl). open_calls. read_trace. rewrite ?Hs, ?Hl. auto.
Qed.

Lemma while_true_durations (env : Env) (fuel : nat) :
  forall w,
    durations_invariant w ->
    sleeps_fixed 10 5 false (trace (snd (while_true env fuel w))) = true.
Proof.
  induction fuel as [ | fuel IH ]; intros w Hw.
  - apply Hw.
  - destruct (while_true_step env fuel w)
      as [ (w1 & w2 & Hi & Hb & ->)
         | [ (w1 & w2 & e & Hi & Hb & ->)
           | [ (w1 & Hi & ->) | (w1 & e & Hi & ->) ] ] ]; cbn [snd];
      destruct (iterates_durations env w w1 _ Hi Hw) as (Hs & Hl);
      trivial.
    + apply IH. apply (back_edge_durations env w1 w2 _ Hb).
      split; [ exact Hs | now apply Hl ].
    + apply (back_edge_durations env w1 w2 _ Hb).
      split; [ exact Hs | now apply Hl ].
Qed.

(** ** The iterations begun *)

Lemma ticks_after (w : World) (c : call) (r : reply) :
  ticks (after w c r)
  = Nat.add (ticks w)
            (match c with
             | Sleep secs => if secs =? 10 then 1%nat else 0%nat
             | _ => 0%nat
             end).
Proof.
  unfold ticks. rewrite trace_after, filter_app, length_app.
  unfold is_interval_sleep. simpl.
  destruct c as [ secs | lvl msg x | msg | ]; simpl; trivial.
  now destruct (secs =? 10).
Qed.

Lemma iterates_ticks (env : Env) (w w' : World) (r : outcome ctl) :
  iterates env w r w' -> ticks w' = S (ticks w).
Proof.
  intros Hi.
  inversion Hi as [ w1 w2 H1 H2 | e w1 r0 w0 H1 Hh | e w1 w2 r0 w0 H1 H2 Hh ];
    subst; try (inversion Hh; subst); open_calls;
    rewrite ?ticks_after; source_calls; simpl; lia.
Qed.



(** ** How the loop returns *)



(** ** Runs in which only the body of the [try] fails *)






(** ** The records of one iteration *)

Lemma emitted_is (env : Env) (w : World) (new : list LogRecord) :
  logfile (snd (loop_body env w)) = logfile w ++ new ->
  emitted env w = new.
Proof.
  intros H. unfold emitted. rewrite H, skipn_app, skipn_all, Nat.sub_diag.
  reflexivity.
Qed.

(** The body of the [try] leaves a record when it raises only if it was
    interrupted after the heartbeat was written. *)
Lemma tick_body_raise_silent (env : Env) (w w1 : World) (e : exn) :
  tick_body env w = (Raise e, w1) ->
  e <> KeyboardInterrupt ->
  logfile w1 = logfile w.
Proof.
  intros Ht He. rewrite tick_body_calls in Ht.
  destruct (perform env interval_sleep w) as [ [ [] | e1 ] w2 ] eqn:H1.
  - destruct (perform env log_heartbeat w2) as [ [ [] | e2 ] w3 ] eqn:H2;
      [ discriminate | ].
    injection Ht as -> ->.
    destruct (sleep_facts env _ _ 10 _ ltac:(lia) H1) as (Hl1 & _).
    destruct (log_facts env _ _ INFO _ _ (or_introl eq_refl) H2)
      as (_ & _ & [ (_ & [ Hr | Hr ]) | (Hl2 & _) ]).
    + discriminate.
    + injection Hr as ->. now destruct He.
    + congruence.
  - injection Ht as -> ->.
    now destruct (sleep_facts env _ _ 10 _ ltac:(lia) H1).
Qed.

(** A tick that fails with a described [Exception], the handler's calls
    returning: the error record, without stack, then the backoff, and the
    iteration ends its body. *)
Lemma failed_tick_recovers (env : Env) (w w1 : World) (e : exn) (s : string) :
  tick_body env w = (Raise e, w1) ->
  is_Exception e = true ->
  str e = Ok s ->
  answers env w1 [(log_error s, Returns); (backoff_sleep, Returns)] ->
  let w3 := after (after w1 (log_error s) Returns) backoff_sleep Returns in
  loop_body env w = (Ok Next, w3)
  /\ logfile w3 = logfile w1 ++ [error_record (now w1) s]
  /\ now w3 = now w1 + 5.
Proof.
  intros Ht He Hs Ha w3. split; [ | split ].
  - rewrite (loop_body_Exception env w w1 e Ht He).
    now apply on_Exception_returns.
  - unfold w3, error_record. now read_log.
  - unfold w3. read_clock. lia.
Qed.

(** ** Tick failures *)


(** ** Cancellation between two calls *)

(** C2, on the source: every call returns, and SIGINT arrives after the
    first heartbeat was logged, so that its handler runs at the jump back to
    [while True:].  That jump stands outside the [try]: the
    [KeyboardInterrupt] leaves [main] uncaught, and the log holds the start
    record and one heartbeat, without an "Agent stopping" record. *)
Theorem C2_cancel_at_the_back_edge_is_uncaught (n : nat) :
  let final := main cancel_at_the_back_edge (S n) initial in
  fst final = Propagated KeyboardInterrupt
  /\ logfile (snd final)
     = [ {| asctime := 0; name := "AgentCore"; levelname := INFO;
            message := "Agent Core started"; exc_text := None |};
         {| asctime := 10; name := "AgentCore"; levelname := INFO;
            message := "Agent heartbeat"; exc_text := None |} ]
  /\ now (snd final) = 10
  /\ ~ In "Agent stopping" (messages (snd final)).
Proof.
  repeat split. simpl. intros [H | [H | []]]; discriminate.
Qed.

(** ** Cancellation during the interval sleep *)

(** C3. When [KeyboardInterrupt] is raised by the interval sleep
    [time.sleep(10)] and the logger takes the record, the iteration leaves
    the loop by [break]: the run returns normally, the file gains exactly
    the INFO record "Agent stopping", stamped with the time of the
    interruption, and no ERROR record. *)
Theorem C3_cancel_during_interval_sleep
        (env : Env) (w : World) (dt : Z) (fuel : nat) :
  answers env w [(interval_sleep, Raises KeyboardInterrupt dt);
                 (log_stopping, Returns)] ->
  let w1 := after w interval_sleep (Raises KeyboardInterrupt dt) in
  let w' := after w1 log_stopping Returns in
  loop_body env w = (Ok Break, w')
  /\ while_true env (S fuel) w = (Returned, w')
  /\ logfile w'
     = logfile w ++ [ {| asctime := now w1; name := "AgentCore";
                         levelname := INFO; message := "Agent stopping";
                         exc_text := None |} ]
  /\ count_level ERROR w' = count_level ERROR w.
Proof.
  intros (H1 & H2 & _) w1 w'.
  assert (Hb : loop_body env w = (Ok Break, w')).
  { rewrite (loop_body_KeyboardInterrupt env w w1).
    - now apply on_KeyboardInterrupt_returns.
    - now apply tick_body_sleep_raises. }
  assert (Hl : logfile w'
               = logfile w ++ [ {| asctime := now w1; name := "AgentCore";
                                   levelname := INFO; message := "Agent stopping";
                                   exc_text := None |} ]).
  { unfold w', w1. now read_log. }
  repeat split; trivial.
  - now apply while_true_break.
  - rewrite (count_level_app ERROR w w' _ Hl). simpl. lia.
Qed.

Lemma C3_cancel_during_interval_sleep_witness :
  while_true (cancel_at 3) 1 initial
  = (Returned,
     after (after initial interval_sleep (Raises KeyboardInterrupt 3))
           log_stopping Returns).
Proof.
  apply (C3_cancel_during_interval_sleep (cancel_at 3) initial 3 0).
  simpl. repeat split.
Defined.

(** ** Cancellation during the error backoff *)

(** What the [except Exception] clause does when its own sleep is
    interrupted: the exception leaves [main], and nothing is logged after
    the ERROR record. *)
Lemma cancel_during_backoff_propagates
      (env : Env) (w w1 : World) (e : exn) (s : string) (dt : Z) (fuel : nat) :
  tick_body env w = (Raise e, w1) ->
  is_Exception e = true ->
  str e = Ok s ->
  answers env w1 [(log_error s, Returns);
                  (backoff_sleep, Raises KeyboardInterrupt dt)] ->
  let w3 := after (after w1 (log_error s) Returns)
                  backoff_sleep (Raises KeyboardInterrupt dt) in
  while_true env (S fuel) w = (Propagated KeyboardInterrupt, w3)
  /\ logfile w3 = logfile w1 ++ [error_record (now w1) s].
Proof.
  intros Ht He Hs Ha w3. split.
  - apply while_true_raise.
    rewrite (loop_body_Exception env w w1 e Ht He).
    now apply on_Exception_sleep_raises.
  - unfold w3, error_record. now read_log.
Qed.

(** C4, on the source: [time.sleep(10)] fails with an [OSError] and SIGINT
    arrives 2 seconds into the 5-second backoff sleep.  The
    [KeyboardInterrupt] is raised inside the handler, outside the [try]: it
    leaves [main] uncaught, and the log ends with the ERROR record, without
    an "Agent stopping" record. *)
Theorem C4_cancel_during_backoff_is_uncaught (n : nat) :
  let e := PyException "OSError" "[Errno 22] Invalid argument" [] in
  let final := main (cancel_in_backoff e 2) (S n) initial in
  fst final = Propagated KeyboardInterrupt
  /\ logfile (snd final)
     = [ {| asctime := 0; name := "AgentCore"; levelname := INFO;
            message := "Agent Core started"; exc_text := None |};
         {| asctime := 0; name := "AgentCore"; levelname := ERROR;
            message := "Error in agent loop: [Errno 22] Invalid argument";
            exc_text := None |} ]
  /\ now (snd final) = 2
  /\ ~ In "Agent stopping" (messages (snd final)).
Proof.
  repeat split. simpl. intros [H | [H | []]]; discriminate.
Qed.

(** ** When the loop stops *)





(** ** A run cancelled at a given time *)

Lemma cancel_at_next (c : Z) (w : World) :
  now w + 10 <= c ->
  loop_body (cancel_at c) w
  = (Ok Next, after (after w interval_sleep Returns) log_heartbeat Returns).
Proof.
  intros H. apply loop_body_ok, tick_body_succeeds. simpl.
  replace (c <? now w + 10) with false by (symmetry; apply Z.ltb_ge; lia).
  auto.
Qed.

Lemma cancel_at_break (c : Z) (w : World) :
  now w <= c < now w + 10 ->
  loop_body (cancel_at c) w
  = (Ok Break,
     after (after w interval_sleep (Raises KeyboardInterrupt (c - now w)))
           log_stopping Returns)
  /\ logfile (after (after w interval_sleep (Raises KeyboardInterrupt (c - now w)))
                    log_stopping Returns)
     = logfile w ++ [info_record c "Agent stopping"].
Proof.
  intros H.
  assert (Hs : reply_to interval_sleep (cancel_at c w interval_sleep)
               = Raises KeyboardInterrupt (c - now w)).
  { simpl. replace (c <? now w + 10) with true by (symmetry; apply Z.ltb_lt; lia).
    reflexivity. }
  split.
  - rewrite (loop_body_KeyboardInterrupt (cancel_at c) w _
               (tick_body_sleep_raises _ w _ _ Hs)).
    now apply on_KeyboardInterrupt_returns.
  - unfold info_record. read_log. do 3 f_equal. lia.
Qed.

(** SIGINT arriving at time [c], during the sleep of the iteration that
    follows [k] undisturbed ones: [k] heartbeats, ten seconds apart, then
    the stopping record at [c], and the run returns. *)
Lemma cancel_at_run (c : Z) (k n : nat) :
  forall w,
    now w + 10 * Z.of_nat k <= c < now w + 10 * Z.of_nat k + 10 ->
    fst (while_true (cancel_at c) (S k + n) w) = Returned
    /\ logfile (snd (while_true (cancel_at c) (S k + n) w))
       = logfile w ++ heartbeats (now w) k ++ [info_record c "Agent stopping"].
Proof.
  induction k as [ | k IH ]; intros w H.
  - destruct (cancel_at_break c w ltac:(lia)) as (Hb & Hl).
    change (S 0 + n)%nat with (S n).
    rewrite (while_true_break _ n w _ Hb). simpl. auto.
  - assert (Hn := cancel_at_next c w ltac:(lia)).
    set (w2 := after (after w interval_sleep Returns) log_heartbeat Returns) in *.
    assert (Hj : perform (cancel_at c) BackEdge w2
                 = (Ok tt, after w2 BackEdge Returns))
      by now apply perform_returns.
    change (S (S k) + n)%nat with (S (S k + n)).
    rewrite (while_true_next _ _ w _ _ Hn Hj).
    set (w3 := after w2 BackEdge Returns) in *.
    assert (Hnow : now w3 = now w + 10) by (unfold w3, w2; read_clock; lia).
    destruct (IH w3 ltac:(lia)) as (Hr & Hl).
    split; [ exact Hr | ].
    assert (Hw3 : logfile w3
                  = logfile w ++ [info_record (now w + 10) "Agent heartbeat"]).
    { unfold w3, w2, info_record. now read_log. }
    rewrite Hl, Hnow, Hw3, <- app_assoc. reflexivity.
Qed.

(** C7. With the interval of 10 seconds and the backoff of 5 seconds of
    the source, every call succeeding and SIGINT arriving 25 seconds after
    the start, the run returns normally in its third iteration and the log
    file holds exactly: "Agent Core started" at 0 s, "Agent heartbeat" at
    10 s, "Agent heartbeat" at 20 s, "Agent stopping" at 25 s, all INFO. *)
Theorem C7_cancel_after_25_seconds (n : nat) :
  fst (main (cancel_at 25) (3 + n) initial) = Returned
  /\ logfile (snd (main (cancel_at 25) (3 + n) initial))
     = [ {| asctime := 0; name := "AgentCore"; levelname := INFO;
            message := "Agent Core started"; exc_text := None |};
         {| asctime := 10; name := "AgentCore"; levelname := INFO;
            message := "Agent heartbeat"; exc_text := None |};
         {| asctime := 20; name := "AgentCore"; levelname := INFO;
            message := "Agent heartbeat"; exc_text := None |};
         {| asctime := 25; name := "AgentCore"; levelname := INFO;
            message := "Agent stopping"; exc_text := None |} ]
  /\ map what (filter is_sleep (trace (snd (main (cancel_at 25) (3 + n) initial))))
     = [Sleep 10; Sleep 10; Sleep 10]
  /\ stdout (snd (main (cancel_at 25) (3 + n) initial)) = ["Agent Core started"]
  /\ fst (main (cancel_at 25) 2 initial) = Running.
Proof.
  set (w2 := after (after initial log_started Returns) print_started Returns).
  assert (Hm : main (cancel_at 25) (3 + n) initial
               = while_true (cancel_at 25) (3 + n) w2).
  { apply main_started. simpl. auto. }
  destruct (cancel_at_run 25 2 n w2) as (Hr & Hl); [ simpl; lia | ].
  rewrite Hm. split; [ exact Hr | ]. split; [ rewrite Hl; reflexivity | ].
  repeat split.
Qed.

(** ** A failing tick *)


(** ** The durations asked of [time.sleep] *)

(** C9. In every run of [main], whatever the environment does and however
    long the run, the interval and the backoff are the constants written in
    the source: a sleep that follows the logging of an error asks for 5
    seconds, every other sleep asks for 10 seconds. *)
Theorem C9_sleep_durations_are_constant (env : Env) (fuel : nat) :
  sleeps_fixed 10 5 false (trace (snd (main env fuel initial))) = true
  /\ sleep_durations_in [10; 5] (trace (snd (main env fuel initial))).
Proof.
  assert (H : sleeps_fixed 10 5 false (trace (snd (main env fuel initial))) = true).
  { destruct (main_cases env fuel initial)
      as [ (w1 & w2 & H1 & H2 & _ & ->)
         | [ (e & w1 & H1 & _ & ->) | (e & w1 & w2 & H1 & H2 & _ & ->) ] ];
      cbn [snd]; open_calls.
    - apply while_true_durations. split; reflexivity.
    - reflexivity.
    - reflexivity. }
  split; [ exact H | exact (sleeps_fixed_durations 10 5 _ false H) ].
Qed.

(** ** The records of an iteration *)





(** * Whole runs *)

(** ** Failures outside the body of the [try] *)

Lemma print_facts (env : Env) (w w' : World) (msg : string)
      (res : outcome unit) :
  perform env (PrintLine msg) w = (res, w') ->
  logfile w' = logfile w
  /\ now w' = now w
  /\ stdout w' = stdout w ++ match res with Ok _ => [msg] | Raise _ => [] end.
Proof.
  intros H.
  assert (Hc : forall lvl m x, PrintLine msg <> Log lvl m x) by discriminate.
  destruct res as [ [] | e ].
  - destruct (plain_ok env _ _ _ Hc H) as (_ & ->).
    split; [ now read_log | ]. split; [ read_clock; lia | now read_stdout ].
  - destruct (plain_raise env _ _ _ _ Hc H) as (dt & _ & ->).
    split; [ now read_log | ]. split; [ read_clock; lia | now read_stdout ].
Qed.

(** The world after the logging of the start, from the initial world. *)
Lemma log_started_facts (env : Env) (w1 : World) (res : outcome unit) :
  perform env log_started initial = (res, w1) ->
  now w1 = 0
  /\ stdout w1 = []
  /\ ticks w1 = 0%nat
  /\ (logfile w1 = [] \/ logfile w1 = [info_record 0 "Agent Core started"]).
Proof.
  intros H.
  destruct (log_facts env _ _ INFO _ _ (or_introl eq_refl) H)
    as (Hn & Ho & Hl).
  split; [ exact Hn | ]. split; [ exact Ho | ].
  split; [ open_calls; now rewrite ticks_after | ].
  destruct Hl as [ (Hl & _) | (Hl & _) ]; rewrite Hl; auto.
Qed.



(** ** Standard output *)



(** ** Exceptions that no clause catches *)

(** X3. Neither [except] clause matches an exception that derives from
    [BaseException] only (a [SystemExit]): raised by the body of the [try],
    it leaves [main] at once, and the iteration writes no record, not even
    an error. *)
Theorem base_exceptions_leave_main
        (env : Env) (w w1 : World) (cls : string) (fuel : nat) :
  tick_body env w = (Raise (BaseOnly cls), w1) ->
  while_true env (S fuel) w = (Propagated (BaseOnly cls), w1)
  /\ logfile w1 = logfile w
  /\ emitted env w = [].
Proof.
  intros Ht.
  pose proof (loop_body_BaseOnly env w w1 cls Ht) as Hb.
  assert (Hl : logfile w1 = logfile w)
    by (apply (tick_body_raise_silent env w w1 _ Ht); discriminate).
  split; [ now apply while_true_raise | ]. split; [ exact Hl | ].
  apply emitted_is. rewrite Hb. cbn [snd]. now rewrite Hl, app_nil_r.
Qed.

Lemma base_exceptions_leave_main_witness :
  let env := failing_ticks (BaseOnly "SystemExit") in
  let w1 := after initial interval_sleep (Raises (BaseOnly "SystemExit") 0) in
  while_true env 3 initial = (Propagated (BaseOnly "SystemExit"), w1)
  /\ logfile w1 = logfile initial
  /\ emitted env initial = [].
Proof.
  intros env w1.
  apply (base_exceptions_leave_main env initial w1 "SystemExit" 2).
  reflexivity.
Defined.

(** ** Cancellation while the heartbeat is logged *)

(** X4. The whole body of the [try] is covered by line 26, not the sleep
    alone: when [KeyboardInterrupt] is raised inside the logging of the
    heartbeat, after a full interval, the iteration writes "Agent stopping",
    stamped 10 seconds after its start, and the run returns.  The heartbeat
    is in the file, above the stopping record and with the same stamp, when
    the interrupt was raised after the write; it is not when the interrupt
    was raised before. *)
Theorem cancel_while_logging_the_heartbeat
        (env : Env) (w : World) (r : reply) (fuel : nat) :
  r = InterruptedAfterWrite \/ (exists dt, r = Raises KeyboardInterrupt dt) ->
  answers env w [(interval_sleep, Returns); (log_heartbeat, r);
                 (log_stopping, Returns)] ->
  fst (while_true env (S fuel) w) = Returned
  /\ logfile (snd (while_true env (S fuel) w))
     = logfile w
       ++ match r with
          | InterruptedAfterWrite => [info_record (now w + 10) "Agent heartbeat"]
          | _ => []
          end
       ++ [info_record (now w + 10) "Agent stopping"]
  /\ now (snd (while_true env (S fuel) w)) = now w + 10.
Proof.
  intros Hr (H1 & H2 & H3 & _).
  set (w2 := after (after w interval_sleep Returns) log_heartbeat r) in *.
  assert (Ht : tick_body env w = (Raise KeyboardInterrupt, w2)).
  { destruct Hr as [ -> | (dt & ->) ].
    - apply tick_body_log_interrupted. simpl. auto.
    - apply tick_body_log_raises. simpl. auto. }
  assert (Hb : loop_body env w = (Ok Break, after w2 log_stopping Returns)).
  { rewrite (loop_body_KeyboardInterrupt env w w2 Ht).
    now apply on_KeyboardInterrupt_returns. }
  rewrite (while_true_break env fuel w _ Hb). cbn [fst snd].
  split; [ reflexivity | ].
  destruct Hr as [ -> | (dt & ->) ]; unfold w2, info_record; split.
  - read_log. now rewrite <- app_assoc.
  - read_clock. lia.
  - now read_log.
  - read_clock. lia.
Qed.

Lemma cancel_while_logging_the_heartbeat_witness :
  fst (while_true cancel_after_the_write 1 initial) = Returned
  /\ logfile (snd (while_true cancel_after_the_write 1 initial))
     = logfile initial
       ++ [info_record (now initial + 10) "Agent heartbeat"]
       ++ [info_record (now initial + 10) "Agent stopping"]
  /\ now (snd (while_true cancel_after_the_write 1 initial)) = now initial + 10.
Proof.
  apply (cancel_while_logging_the_heartbeat
           cancel_after_the_write initial InterruptedAfterWrite 0).
  - now left.
  - simpl. repeat split.
Defined.

(** ** Failures of the handlers *)

(** X5. The handlers run outside the [try], so nothing protects them: when
    the body of the [try] has raised [e] and the clause that handles [e]
    raises [e'] in its turn (in the logging of the stop, in [str(e)] of the
    f-string, in the logging of the error, or in the backoff sleep), [e']
    leaves [main], whatever its class, and no further tick is begun. *)
Theorem handler_failures_leave_main
        (env : Env) (w w1 : World) (e e' : exn) (fuel : nat) :
  tick_body env w = (Raise e, w1) ->
  (e = KeyboardInterrupt
   /\ exists r, answers env w1 [(log_stopping, r)] /\ result_of r = Raise e')
  \/ (is_Exception e = true /\ str e = Raise e')
  \/ (is_Exception e = true
      /\ exists s r,
          str e = Ok s
          /\ answers env w1 [(log_error s, r)] /\ result_of r = Raise e')
  \/ (is_Exception e = true
      /\ exists s r r',
          str e = Ok s
          /\ answers env w1 [(log_error s, r); (backoff_sleep, r')]
          /\ result_of r = Ok tt /\ result_of r' = Raise e') ->
  fst (while_true env (S fuel) w) = Propagated e'
  /\ snd (while_true env (S fuel) w) = snd (loop_body env w)
  /\ ticks (snd (while_true env (S fuel) w)) = S (ticks w).
Proof.
  intros Ht Hcases.
  assert (Hb : fst (loop_body env w) = Raise e').
  { destruct Hcases
      as [ (-> & r & (H1 & _) & Hr)
         | [ (He & Hs)
           | [ (He & s & r & Hs & (H1 & _) & Hr)
             | (He & s & r & r' & Hs & (H1 & H2 & _) & Hr & Hr') ] ] ].
    - rewrite (loop_body_KeyboardInterrupt env w w1 Ht),
        on_KeyboardInterrupt_calls, (perform_answer env _ _ _ H1), Hr.
      reflexivity.
    - rewrite (loop_body_Exception env w w1 e Ht He),
        (on_Exception_undescribable env w1 e e' Hs).
      reflexivity.
    - rewrite (loop_body_Exception env w w1 e Ht He),
        (on_Exception_calls env w1 e s Hs), (perform_answer env _ _ _ H1), Hr.
      reflexivity.
    - rewrite (loop_body_Exception env w w1 e Ht He),
        (on_Exception_calls env w1 e s Hs), (perform_answer env _ _ _ H1), Hr,
        (perform_answer env _ _ _ H2), Hr'.
      reflexivity. }
  pose proof (loop_body_iterates env w) as Hi.
  destruct (loop_body env w) as [ r' w' ] eqn:Hl. cbn [fst snd] in *. subst r'.
  rewrite (while_true_raise env fuel w w' e' Hl). cbn [fst snd].
  split; [ reflexivity | ]. split; [ reflexivity | ].
  exact (iterates_ticks env w w' _ Hi).
Qed.

Lemma handler_failures_leave_main_witness :
  fst (while_true (failing_ticks undescribable) 5 initial)
  = Propagated str_TypeError.
Proof.
  apply (handler_failures_leave_main
           (failing_ticks undescribable) initial
           (after initial interval_sleep (Raises undescribable 0))
           undescribable str_TypeError 4).
  - reflexivity.
  - right; left. split; reflexivity.
Defined.

(** ** The shape of the log file *)

Lemma ticking_more (w w' : World) (rs : list LogRecord) :
  ticking w ->
  logfile w' = logfile w ++ rs ->
  Forall tick_record rs ->
  ticking w'.
Proof.
  intros (head & mid & Hl & Hh & Hm) Hw Hrs.
  exists head, (mid ++ rs). rewrite Hw, Hl, <- app_assoc.
  split; [ reflexivity | ]. split; [ exact Hh | ].
  apply Forall_app. auto.
Qed.

Lemma ticking_shaped (st : status) (w : World) : ticking w -> shaped st w.
Proof.
  intros (head & mid & Hl & Hh & Hm).
  exists head, mid, []. rewrite app_nil_r. auto.
Qed.

Lemma ticking_stopped (st : status) (w w' : World) (rs : list LogRecord)
      (t : Z) :
  ticking w ->
  logfile w' = logfile w ++ rs ++ [info_record t "Agent stopping"] ->
  Forall tick_record rs ->
  st <> Running ->
  shaped st w'.
Proof.
  intros (head & mid & Hl & Hh & Hm) Hw Hrs Hst.
  exists head, (mid ++ rs), [info_record t "Agent stopping"].
  rewrite Hw, Hl, <- !app_assoc.
  split; [ reflexivity | ]. split; [ exact Hh | ].
  split; [ apply Forall_app; auto | ]. right. eauto.
Qed.

Lemma heartbeat_is_tick_record (t : Z) :
  Forall tick_record [info_record t "Agent heartbeat"].
Proof. constructor; [ left; eauto | constructor ]. Qed.

Lemma error_is_tick_record (t : Z) (s : string) :
  Forall tick_record [error_record t s].
Proof. constructor; [ right; eauto | constructor ]. Qed.

Lemma iterates_shape (env : Env) (w w' : World) (r : outcome ctl) :
  iterates env w r w' ->
  ticking w ->
  (r = Ok Next -> ticking w')
  /\ (forall st, st <> Running -> shaped st w').
Proof.
  intros Hi Hw.
  destruct (iterates_summary env w w' r Hi)
    as (_ & _ & _ & [ (Hl & _)
                    | [ (Hl & _)
                      | [ (t & Hl & Hr & _)
                        | [ (t & s & Hl & Hr & _) | (Hl & Hr & _) ] ] ] ]).
  - assert (Ht : ticking w').
    { apply (ticking_more w w' []); [ exact Hw | now rewrite app_nil_r | constructor ]. }
    split; [ auto | ]. intros st _. now apply ticking_shaped.
  - assert (Ht : ticking w')
      by exact (ticking_more w w' _ Hw Hl (heartbeat_is_tick_record _)).
    split; [ auto | ]. intros st _. now apply ticking_shaped.
  - split; [ intros H; now destruct Hr | ]. intros st Hst.
    apply (ticking_stopped st w w' [] t Hw); [ exact Hl | constructor | exact Hst ].
  - assert (Ht : ticking w')
      by exact (ticking_more w w' _ Hw Hl (error_is_tick_record _ _)).
    split; [ auto | ]. intros st _. now apply ticking_shaped.
  - split; [ intros H; now destruct Hr | ]. intros st Hst.
    apply (ticking_stopped st w w' [info_record (now w + 10) "Agent heartbeat"]
                           (now w + 10) Hw);
      [ exact Hl | apply heartbeat_is_tick_record | exact Hst ].
Qed.

Lemma back_edge_ticking (env : Env) (w w' : World) (res : outcome unit) :
  perform env BackEdge w = (res, w') -> ticking w -> ticking w'.
Proof.
  intros Hb Hw. destruct (back_edge_facts env w w' res Hb) as (Hl & _).
  apply (ticking_more w w' []); [ exact Hw | now rewrite app_nil_r | constructor ].
Qed.

Lemma while_true_shape (env : Env) (fuel : nat) :
  forall w,
    ticking w ->
    shaped (fst (while_true env fuel w)) (snd (while_true env fuel w)).
Proof.
  induction fuel as [ | fuel IH ]; intros w Hw.
  - now apply ticking_shaped.
  - destruct (while_true_step env fuel w)
      as [ (w1 & w2 & Hi & Hb & ->)
         | [ (w1 & w2 & e & Hi & Hb & ->)
           | [ (w1 & Hi & ->) | (w1 & e & Hi & ->) ] ] ]; cbn [fst snd];
      destruct (iterates_shape env w w1 _ Hi Hw) as (Hnext & Hstop).
    + apply IH. apply (back_edge_ticking env w1 w2 _ Hb). now apply Hnext.
    + apply ticking_shaped, (back_edge_ticking env w1 w2 _ Hb). now apply Hnext.
    + apply Hstop. discriminate.
    + apply Hstop. discriminate.
Qed.

Lemma startup_ticking (env : Env) (w1 w2 : World) (r1 r2 : outcome unit) :
  perform env log_started initial = (r1, w1) ->
  perform env print_started w1 = (r2, w2) ->
  ticking w1 /\ ticking w2.
Proof.
  intros H1 H2.
  destruct (log_started_facts env _ _ H1) as (_ & _ & _ & Hl).
  destruct (print_facts env _ _ _ _ H2) as (Hl2 & _).
  assert (Ht : ticking w1).
  { exists (logfile w1), []. rewrite app_nil_r. split; [ reflexivity | ].
    split; [ exact Hl | constructor ]. }
  split; [ exact Ht | ].
  apply (ticking_more w1 w2 []); [ exact Ht | now rewrite app_nil_r | constructor ].
Qed.

(** X6. After any run of [main] the records it added to the log file read:
    the record "Agent Core started" stamped 0, unless it was not stored;
    then heartbeat and error records only; then at most one "Agent
    stopping" record.  The stopping record is always last and never written
    twice, and it is there only when the run is over. *)
Theorem log_file_shape (env : Env) (fuel : nat) :
  let final := main env fuel initial in
  exists head mid tail,
    logfile (snd final) = head ++ mid ++ tail
    /\ (head = [] \/ head = [info_record 0 "Agent Core started"])
    /\ Forall tick_record mid
    /\ (tail = []
        \/ exists t,
            tail = [info_record t "Agent stopping"] /\ fst final <> Running).
Proof.
  intros final. subst final. change (shaped (fst (main env fuel initial))
                                          (snd (main env fuel initial))).
  destruct (main_cases env fuel initial)
    as [ (w1 & w2 & H1 & H2 & _ & ->)
       | [ (e & w1 & H1 & _ & ->) | (e & w1 & w2 & H1 & H2 & _ & ->) ] ].
  - apply while_true_shape. now destruct (startup_ticking env _ _ _ _ H1 H2).
  - apply ticking_shaped.
    destruct (log_started_facts env _ _ H1) as (_ & _ & _ & Hl).
    exists (logfile w1), []. rewrite app_nil_r. split; [ reflexivity | ].
    split; [ exact Hl | constructor ].
  - apply ticking_shaped. now destruct (startup_ticking env _ _ _ _ H1 H2).
Qed.

(** ** While the loop runs *)

Lemma while_true_running_time (env : Env) (fuel : nat) :
  forall w,
    fst (while_true env fuel w) = Running ->
    now w + 5 * Z.of_nat fuel <= now (snd (while_true env fuel w)).
Proof.
  induction fuel as [ | fuel IH ]; intros w.
  - simpl. lia.
  - destruct (while_true_step env fuel w)
      as [ (w1 & w2 & Hi & Hb & ->)
         | [ (w1 & w2 & e & Hi & Hb & ->)
           | [ (w1 & Hi & ->) | (w1 & e & Hi & ->) ] ] ]; cbn [fst snd];
      try discriminate.
    intros H. specialize (IH w2 H).
    destruct (iterates_summary env w w1 _ Hi) as (_ & _ & Hn & _).
    specialize (Hn eq_refl).
    destruct (back_edge_facts env w1 w2 _ Hb) as (_ & _ & Hn2).
    rewrite Nat2Z.inj_succ. lia.
Qed.

Lemma while_true_running_records (env : Env) (fuel : nat) :
  never_lost env ->
  forall w,
    fst (while_true env fuel w) = Running ->
    exists mid,
      logfile (snd (while_true env fuel w)) = logfile w ++ mid
      /\ List.length mid = fuel
      /\ Forall tick_record mid.
Proof.
  intros Hnever. induction fuel as [ | fuel IH ]; intros w.
  - intros _. exists []. rewrite app_nil_r. auto.
  - destruct (while_true_step env fuel w)
      as [ (w1 & w2 & Hi & Hb & ->)
         | [ (w1 & w2 & e & Hi & Hb & ->)
           | [ (w1 & Hi & ->) | (w1 & e & Hi & ->) ] ] ]; cbn [fst snd];
      try discriminate.
    intros H. destruct (IH w2 H) as (mid & Hl & Hlen & Hmid).
    destruct (back_edge_facts env w1 w2 _ Hb) as (Hl2 & _).
    destruct (iterates_summary env w w1 _ Hi)
      as (_ & _ & _ & [ (_ & Hlost)
                      | [ (Hl1 & _)
                        | [ (t & _ & Hr & _)
                          | [ (t & s & Hl1 & _) | (_ & Hr & _) ] ] ] ]).
    + destruct (Hlost (or_introl eq_refl)) as (w0 & c & Hc).
      now destruct (Hnever w0 c).
    + exists (info_record (now w + 10) "Agent heartbeat" :: mid).
      rewrite Hl, Hl2, Hl1, <- app_assoc.
      split; [ reflexivity | ]. split; [ simpl; now rewrite Hlen | ].
      constructor; [ left; eauto | exact Hmid ].
    + now destruct Hr.
    + exists (error_record t s :: mid).
      rewrite Hl, Hl2, Hl1, <- app_assoc.
      split; [ reflexivity | ]. split; [ simpl; now rewrite Hlen | ].
      constructor; [ right; eauto | exact Hmid ].
    + now destruct Hr.
Qed.

(** X7. The loop cannot spin: every iteration it completes sleeps the
    interval, or logs an error and sleeps the backoff.  So when [main] is
    still running after [fuel] iterations, at least [5 * fuel] seconds
    have passed since the start, whatever failed on the way. *)
Theorem running_takes_time (env : Env) (fuel : nat) :
  fst (main env fuel initial) = Running ->
  5 * Z.of_nat fuel <= now (snd (main env fuel initial)).
Proof.
  destruct (main_cases env fuel initial)
    as [ (w1 & w2 & H1 & H2 & _ & ->)
       | [ (e & w1 & H1 & _ & ->) | (e & w1 & w2 & H1 & H2 & _ & ->) ] ];
    try discriminate.
  intros H. pose proof (while_true_running_time env fuel _ H) as Hnow.
  destruct (log_started_facts env _ _ H1) as (Hn1 & _).
  destruct (print_facts env _ _ _ _ H2) as (_ & Hn2 & _).
  lia.
Qed.

Lemma running_takes_time_witness :
  let e := PyException "OSError" "connection refused" [] in
  5 * Z.of_nat 4 <= now (snd (main (failing_ticks e) 4 initial)).
Proof.
  intros e. apply (running_takes_time (failing_ticks e) 4). reflexivity.
Defined.

(** X8. Where the logger loses no record, the log file of a run that is
    still in the loop accounts for every iteration: after [fuel] iterations
    it holds the start record followed by exactly [fuel] records, one per
    iteration, each a heartbeat or an error. *)
Theorem running_logs_one_record_per_iteration (env : Env) (fuel : nat) :
  never_lost env ->
  fst (main env fuel initial) = Running ->
  exists mid,
    logfile (snd (main env fuel initial))
    = info_record 0 "Agent Core started" :: mid
    /\ List.length mid = fuel
    /\ Forall tick_record mid.
Proof.
  intros Hnever.
  destruct (main_cases env fuel initial)
    as [ (w1 & w2 & H1 & H2 & _ & ->)
       | [ (e & w1 & H1 & _ & ->) | (e & w1 & w2 & H1 & H2 & _ & ->) ] ];
    try discriminate.
  intros H.
  destruct (while_true_running_records env fuel Hnever _ H)
    as (mid & Hl & Hm).
  destruct (log_facts env _ _ INFO _ _ (or_introl eq_refl) H1)
    as (_ & _ & [ (Hl1 & _) | (_ & Hlost) ]).
  - destruct (print_facts env _ _ _ _ H2) as (Hl2 & _).
    exists mid. rewrite Hl, Hl2, Hl1. split; [ reflexivity | exact Hm ].
  - now destruct (Hnever _ _ (Hlost eq_refl)).
Qed.

Lemma running_logs_one_record_per_iteration_witness :
  exists mid,
    logfile (snd (main quiet 3 initial))
    = info_record 0 "Agent Core started" :: mid
    /\ List.length mid = 3%nat
    /\ Forall tick_record mid.
Proof.
  apply (running_logs_one_record_per_iteration quiet 3).
  - intros w c. discriminate.
  - reflexivity.
Defined.

(** ** The pace of the records *)

Lemma paced_app (rs rs' : list LogRecord) :
  forall prev,
    paced prev (rs ++ rs') = paced prev rs && paced (last_stamp prev rs) rs'.
Proof.
  induction rs as [ | r rs IH ]; intros prev; simpl.
  - reflexivity.
  - now rewrite IH, !andb_assoc.
Qed.

Lemma last_stamp_app (rs rs' : list LogRecord) :
  forall prev,
    last_stamp prev (rs ++ rs') = last_stamp (last_stamp prev rs) rs'.
Proof.
  induction rs as [ | r rs IH ]; intros prev; simpl; [ reflexivity | apply IH ].
Qed.

Lemma paced_consecutive (l1 l2 : list LogRecord) (r1 r2 : LogRecord) :
  forall prev,
    paced prev (l1 ++ r1 :: r2 :: l2) = true ->
    asctime r1 <= asctime r2
    /\ (is_heartbeat r2 = true -> asctime r1 + 10 <= asctime r2).
Proof.
  intros prev H. rewrite paced_app in H.
  apply andb_true_iff in H as (_ & H). simpl in H.
  apply andb_true_iff in H as (_ & H).
  apply andb_true_iff in H as (H & _).
  apply andb_true_iff in H as (Hle & Hhb).
  split; [ now apply Z.leb_le | ].
  intros Hb. rewrite Hb in Hhb. now apply Z.leb_le.
Qed.

Lemma pace_same (w w' : World) :
  pace_invariant w -> logfile w' = logfile w -> now w <= now w' ->
  pace_invariant w'.
Proof.
  intros (Hp & Hs) Hl Hn. unfold pace_invariant. rewrite Hl.
  split; [ exact Hp | lia ].
Qed.

Lemma pace_one_more (w w' : World) (r : LogRecord) :
  pace_invariant w ->
  logfile w' = logfile w ++ [r] ->
  now w <= asctime r <= now w' ->
  (is_heartbeat r = true -> now w + 10 <= asctime r) ->
  pace_invariant w'.
Proof.
  intros (Hp & Hs) Hl Ht Hhb. unfold pace_invariant.
  rewrite Hl, paced_app, last_stamp_app, Hp. simpl. split; [ | lia ].
  rewrite !andb_true_r. apply andb_true_iff. split.
  - apply Z.leb_le. lia.
  - destruct (is_heartbeat r); [ | reflexivity ].
    apply Z.leb_le. specialize (Hhb eq_refl). lia.
Qed.

Lemma pace_two_more (w w' : World) (t : Z) :
  pace_invariant w ->
  logfile w' = logfile w ++ [info_record t "Agent heartbeat";
                             info_record t "Agent stopping"] ->
  now w + 10 <= t <= now w' ->
  pace_invariant w'.
Proof.
  intros (Hp & Hs) Hl Ht. unfold pace_invariant.
  rewrite Hl, paced_app, last_stamp_app, Hp. simpl. split; [ | lia ].
  rewrite !andb_true_r, !andb_true_iff, !Z.leb_le. lia.
Qed.

Lemma iterates_pace (env : Env) (w w' : World) (r : outcome ctl) :
  iterates env w r w' -> pace_invariant w -> pace_invariant w'.
Proof.
  intros Hi Hw.
  destruct (iterates_summary env w w' r Hi)
    as (_ & Hb & _ & [ (Hl & _)
                     | [ (Hl & Hn & _)
                       | [ (t & Hl & _ & Ht)
                         | [ (t & s & Hl & _ & Ht) | (Hl & _ & Hn) ] ] ] ]).
  - apply (pace_same w w' Hw Hl). lia.
  - apply (pace_one_more w w' _ Hw Hl); simpl; lia.
  - apply (pace_one_more w w' _ Hw Hl); simpl; [ lia | discriminate ].
  - apply (pace_one_more w w' _ Hw Hl); simpl; [ lia | discriminate ].
  - apply (pace_two_more w w' _ Hw Hl). lia.
Qed.

Lemma while_true_pace (env : Env) (fuel : nat) :
  forall w, pace_invariant w -> pace_invariant (snd (while_true env fuel w)).
Proof.
  apply (while_true_invariant env pace_invariant).
  - intros w r w'. apply iterates_pace.
  - intros w res w' Hb Hw.
    destruct (back_edge_facts env w w' res Hb) as (Hl & _ & Hn).
    apply (pace_same w w' Hw Hl). lia.
Qed.

Lemma main_pace (env : Env) (fuel : nat) :
  pace_invariant (snd (main env fuel initial)).
Proof.
  assert (Hstart : forall w1 res,
             perform env log_started initial = (res, w1) -> pace_invariant w1).
  { intros w1 res H1.
    destruct (log_started_facts env _ _ H1) as (Hn & _ & _ & [ Hl | Hl ]);
      unfold pace_invariant; rewrite Hl, Hn; split; simpl; trivial; lia. }
  destruct (main_cases env fuel initial)
    as [ (w1 & w2 & H1 & H2 & _ & ->)
       | [ (e & w1 & H1 & _ & ->) | (e & w1 & w2 & H1 & H2 & _ & ->) ] ];
    cbn [snd].
  - apply while_true_pace.
    destruct (print_facts env _ _ _ _ H2) as (Hl2 & Hn2 & _).
    apply (pace_same w1 w2 (Hstart _ _ H1) Hl2). lia.
  - exact (Hstart _ _ H1).
  - destruct (print_facts env _ _ _ _ H2) as (Hl2 & Hn2 & _).
    apply (pace_same w1 w2 (Hstart _ _ H1) Hl2). lia.
Qed.

(** X9. In the log file of any run, by the simulated clock: a record is
    never stamped before the record above it, and a heartbeat is stamped at
    least 10 seconds after the record above it, since line 24 is reached
    only through the full sleep of line 23. *)
Theorem heartbeats_are_ten_seconds_apart
        (env : Env) (fuel : nat) (l1 l2 : list LogRecord) (r1 r2 : LogRecord) :
  logfile (snd (main env fuel initial)) = l1 ++ r1 :: r2 :: l2 ->
  asctime r1 <= asctime r2
  /\ (message r2 = "Agent heartbeat" -> asctime r1 + 10 <= asctime r2).
Proof.
  intros Hl. destruct (main_pace env fuel) as (Hp & _). rewrite Hl in Hp.
  destruct (paced_consecutive l1 l2 r1 r2 0 Hp) as (Hle & Hhb).
  split; [ exact Hle | ]. intros Hm. apply Hhb.
  unfold is_heartbeat. rewrite Hm. reflexivity.
Qed.

Lemma heartbeats_are_ten_seconds_apart_witness :
  asctime (info_record 10 "Agent heartbeat")
  <= asctime (info_record 20 "Agent heartbeat")
  /\ (message (info_record 20 "Agent heartbeat") = "Agent heartbeat" ->
      asctime (info_record 10 "Agent heartbeat") + 10
      <= asctime (info_record 20 "Agent heartbeat")).
Proof.
  apply (heartbeats_are_ten_seconds_apart
           (cancel_at 25) 3
           [info_record 0 "Agent Core started"]
           [info_record 25 "Agent stopping"]).
  reflexivity.
Defined.

(** ** The logger and the configured level *)

Lemma perform_calls (env : Env) (w w' : World) (c : call) (res : outcome unit) :
  perform env c w = (res, w') ->
  source_call c -> calls_of_main w -> calls_of_main w'.
Proof.
  intros H Hc Hw. open_calls. unfold calls_of_main. rewrite trace_after.
  apply Forall_app. split; [ exact Hw | ].
  constructor; [ exact Hc | constructor ].
Qed.

Lemma handles_calls (env : Env) (w1 w' : World) (e : exn) (r : outcome ctl) :
  handles env w1 e r w' -> calls_of_main w1 -> calls_of_main w'.
Proof.
  assert (Hlog : forall s, source_call (log_error s)).
  { intros s. unfold source_call. repeat right. now exists s. }
  intros Hh Hw.
  inversion Hh as [ w2 Hs | e' w2 Hs
                  | e0 s w2 w3 He Hd Hl Hs | e0 s e' w2 w3 He Hd Hl Hs
                  | e0 s e' w2 He Hd Hl | e0 e' He Hd | cls ]; subst; trivial.
  - apply (perform_calls env _ _ _ _ Hs); [ unfold source_call; auto 10 | exact Hw ].
  - apply (perform_calls env _ _ _ _ Hs); [ unfold source_call; auto 10 | exact Hw ].
  - apply (perform_calls env _ _ _ _ Hs); [ unfold source_call; auto 10 | ].
    exact (perform_calls env _ _ _ _ Hl (Hlog s) Hw).
  - apply (perform_calls env _ _ _ _ Hs); [ unfold source_call; auto 10 | ].
    exact (perform_calls env _ _ _ _ Hl (Hlog s) Hw).
  - exact (perform_calls env _ _ _ _ Hl (Hlog s) Hw).
Qed.

Lemma iterates_calls (env : Env) (w w' : World) (r : outcome ctl) :
  iterates env w r w' -> calls_of_main w -> calls_of_main w'.
Proof.
  intros Hi Hw.
  assert (Hsleep : source_call interval_sleep) by (unfold source_call; auto 10).
  assert (Hbeat : source_call log_heartbeat) by (unfold source_call; auto 10).
  inversion Hi as [ w1 w2 H1 H2 | e w1 r0 w0 H1 Hh | e w1 w2 r0 w0 H1 H2 Hh ];
    subst.
  - apply (perform_calls env _ _ _ _ H2 Hbeat).
    exact (perform_calls env _ _ _ _ H1 Hsleep Hw).
  - apply (handles_calls env _ _ _ _ Hh).
    exact (perform_calls env _ _ _ _ H1 Hsleep Hw).
  - apply (handles_calls env _ _ _ _ Hh).
    apply (perform_calls env _ _ _ _ H2 Hbeat).
    exact (perform_calls env _ _ _ _ H1 Hsleep Hw).
Qed.

Lemma main_calls (env : Env) (fuel : nat) :
  calls_of_main (snd (main env fuel initial)).
Proof.
  assert (Hlog : source_call log_started) by (unfold source_call; auto 10).
  assert (Hprint : source_call print_started) by (unfold source_call; auto 10).
  assert (Hinit : calls_of_main initial) by constructor.
  destruct (main_cases env fuel initial)
    as [ (w1 & w2 & H1 & H2 & _ & ->)
       | [ (e & w1 & H1 & _ & ->) | (e & w1 & w2 & H1 & H2 & _ & ->) ] ];
    cbn [snd].
  - apply (while_true_invariant env calls_of_main).
    + intros w r w'. apply iterates_calls.
    + intros w res w' Hb. apply (perform_calls env _ _ _ _ Hb).
      unfold source_call. auto 10.
    + apply (perform_calls env _ _ _ _ H2 Hprint).
      exact (perform_calls env _ _ _ _ H1 Hlog Hinit).
  - exact (perform_calls env _ _ _ _ H1 Hlog Hinit).
  - apply (perform_calls env _ _ _ _ H2 Hprint).
    exact (perform_calls env _ _ _ _ H1 Hlog Hinit).
Qed.

(** X10. Every logger call of a run of [main] is made at INFO or at ERROR,
    which the level configured on line 9 lets through, and without
    [exc_info]: no record is filtered out and none carries a stack.  The
    record of a call whose line was written (the call returned without the
    handler losing the record, or was interrupted after the write) is in the
    file, stamped with the time of the call. *)
Theorem logger_calls_pass_the_level
        (env : Env) (fuel : nat) (o : occurrence)
        (lvl : level) (msg : string) (x : option exn) :
  In o (trace (snd (main env fuel initial))) ->
  what o = Log lvl msg x ->
  (lvl = INFO \/ lvl = ERROR)
  /\ levelno configured_level <= levelno lvl
  /\ x = None
  /\ (how o = Returns \/ how o = InterruptedAfterWrite ->
      In {| asctime := at_time o; name := "AgentCore"; levelname := lvl;
            message := msg; exc_text := None |}
         (logfile (snd (main env fuel initial)))).
Proof.
  intros Hin Hw.
  pose proof (main_calls env fuel) as Hsrc. unfold calls_of_main in Hsrc.
  rewrite Forall_forall in Hsrc. specialize (Hsrc o Hin). rewrite Hw in Hsrc.
  assert (Hcall : (lvl = INFO \/ lvl = ERROR) /\ x = None).
  { destruct Hsrc
      as [ H | [ H | [ H | [ H | [ H | [ H | [ H | (s & H) ] ] ] ] ] ] ];
      try discriminate; injection H as -> _ ->; auto. }
  destruct Hcall as (Hlvl & ->).
  split; [ exact Hlvl | ].
  split; [ destruct Hlvl as [ -> | -> ]; simpl; lia | ].
  split; [ reflexivity | ].
  intros Hhow. unfold logfile. apply in_flat_map. exists o.
  split; [ exact Hin | ]. unfold record_of. rewrite Hw.
  destruct Hhow as [ -> | -> ]; destruct Hlvl as [ -> | -> ]; simpl; auto.
Qed.

Lemma logger_calls_pass_the_level_witness :
  (INFO = INFO \/ INFO = ERROR)
  /\ levelno configured_level <= levelno INFO
  /\ @None exn = None
  /\ (Returns = Returns \/ Returns = InterruptedAfterWrite ->
      In (info_record 10 "Agent heartbeat")
         (logfile (snd (main quiet 1 initial)))).
Proof.
  apply (logger_calls_pass_the_level
           quiet 1 (mkOccurrence 10 log_heartbeat Returns)
           INFO "Agent heartbeat" None).
  - simpl. auto.
  - reflexivity.
Defined.
